(** * The focusless chat input of bloxchat

    A shallow embedding of [apps/desktop/src/components/ChatInput.tsx]:
    the key-code resolver, the text buffer with its selection, the
    suggestion session and the interpreter of global key events, followed
    by the properties of the written specification that concern them.

    JavaScript strings are sequences of UTF-16 code units; [length],
    [slice] and every selection offset of the component count code units.
    A string is therefore a [list Z] of code units, and offsets are [Z]
    (the component clamps them, it never assumes them to be in range). *)

From Stdlib Require Import String Ascii.
From Stdlib Require Import ZArith List Bool Lia.
Import ListNotations.
Local Open Scope Z_scope.

(** ** JavaScript strings *)

Module JsString.

Definition str := list Z.

(** A literal of the source, one code unit per ASCII character. *)
Fixpoint lit (s : string) : str :=
  match s with
  | EmptyString => []
  | String c rest => Z.of_N (N_of_ascii c) :: lit rest
  end.

Definition len (s : str) : Z := Z.of_nat (length s).

Fixpoint eqb (a b : str) : bool :=
  match a, b with
  | [], [] => true
  | x :: a', y :: b' => (x =? y) && eqb a' b'
  | _, _ => false
  end.

(** [s.slice(start, end)]: a negative index counts from the end, and both
    indices are brought into [0, length]. *)
Definition relIndex (n i : Z) : Z :=
  if i <? 0 then Z.max (n + i) 0 else Z.min i n.

Definition slice (s : str) (start stop : Z) : str :=
  let from := relIndex (len s) start in
  let to := relIndex (len s) stop in
  firstn (Z.to_nat (to - from)) (skipn (Z.to_nat from) s).

(** [s.slice(start)]. *)
Definition sliceFrom (s : str) (start : Z) : str :=
  skipn (Z.to_nat (relIndex (len s) start)) s.

(** [s.startsWith(p)]. *)
Definition startsWith (p s : str) : bool := eqb (firstn (length p) s) p.

(** [s.lastIndexOf(c)] for a search string of the single code unit [c]:
    the greatest index holding [c], or -1. *)
Fixpoint lastIndexOfFrom (i : Z) (c : Z) (s : str) : Z :=
  match s with
  | [] => -1
  | x :: rest =>
      let later := lastIndexOfFrom (i + 1) c rest in
      if 0 <=? later then later else if x =? c then i else -1
  end.

Definition lastIndexOf (s : str) (c : Z) : Z := lastIndexOfFrom 0 c s.

(** The characters matched by [\s], which are also those [trim] removes:
    WhiteSpace and LineTerminator of ECMAScript. *)
Definition isWhiteSpace (c : Z) : bool :=
  ((9 <=? c) && (c <=? 13)) || (c =? 32) || (c =? 160) || (c =? 5760)
  || ((8192 <=? c) && (c <=? 8202)) || (c =? 8232) || (c =? 8233)
  || (c =? 8239) || (c =? 8287) || (c =? 12288) || (c =? 65279).

(** [s.split(/\s/)]: the pieces between whitespace characters, first to
    last; never an empty array. *)
Fixpoint splitWhiteSpace (s : str) : list str :=
  match s with
  | [] => [[]]
  | c :: rest =>
      if isWhiteSpace c then [] :: splitWhiteSpace rest
      else match splitWhiteSpace rest with
           | piece :: pieces => (c :: piece) :: pieces
           | [] => [[c]]
           end
  end.

(** [array.pop()] read as a value: the last element, if any. *)
Definition pop {A} (l : list A) : option A := last (map Some l) None.

Fixpoint trimStart (s : str) : str :=
  match s with
  | c :: rest => if isWhiteSpace c then trimStart rest else s
  | [] => []
  end.

(** [s.trim()]. *)
Definition trim (s : str) : str := rev (trimStart (rev (trimStart s))).

(** [s.replace(/\r/g, "")]. *)
Definition removeCarriageReturns (s : str) : str :=
  filter (fun c => negb (c =? 13)) s.

(** Character classes of the regular expressions in the source. *)
Definition isUpperAZ (c : Z) : bool := (65 <=? c) && (c <=? 90).
Definition isLowerAZ (c : Z) : bool := (97 <=? c) && (c <=? 122).
Definition isDigit (c : Z) : bool := (48 <=? c) && (c <=? 57).
Definition isAsciiLetter (c : Z) : bool := isLowerAZ c || isUpperAZ c.

(** [/^prefix[class]{lo,hi}$/.test(s)]. *)
Definition testPrefixClass (prefix : str) (class : Z -> bool) (lo hi : nat)
    (s : str) : bool :=
  let rest := skipn (length prefix) s in
  startsWith prefix s
  && (lo <=? length rest)%nat && (length rest <=? hi)%nat
  && forallb class rest.

(** [letter.toLowerCase()] where the source applies it to one of the
    capitals A..Z: the letter 32 code units up. *)
Definition letterToLowerCase (s : str) : str :=
  map (fun c => if isUpperAZ c then c + 32 else c) s.

End JsString.

Import JsString.

(** ** Data of the component *)

Inductive Phase := down | up.

(** [GlobalKeyPayload]; an optional field that is absent (or [null]) is
    [None]. *)
Record GlobalKeyPayload := {
  code : str;
  text : option str;
  phase : Phase;
  ctrl : bool;
  shift : bool;
  caps : option bool;
  alt : bool;
  meta : bool;
  repeat : bool;
  timestamp_ms : Z;
}.

Inductive ChatInputKeyAction := none | submit | cancel.

Inductive ChatInputMode := ime | focusless.

(** [EmojiSuggestion] is declared in [lib/emoji]; the component reads
    these two fields of it. *)
Record EmojiSuggestion := { shortcode : str; emoji : str }.

Inductive Suggestion :=
  | Mention (value : str)
  | Emoji (value : EmojiSuggestion).

Definition clamp (value min max : Z) : Z := Z.max min (Z.min max value).

Record NormalizedRange := { start : Z; end_ : Z }.

Definition toNormalizedRange (start end_ : Z) : NormalizedRange :=
  {| start := Z.min start end_; end_ := Z.max start end_ |}.

(** ** Key-code resolver *)

(** The three tables are object literals keyed by key code; they are kept
    as association lists in the order of the source, which is the order
    [Object.keys] lists them in. *)
Definition Table := list (str * str).

(** An object literal has [Object.prototype] as its prototype, and a
    lookup [table[code]] that finds no entry of the literal goes on there:
    under these twelve names it finds a member of [Object.prototype],
    eleven functions and, under [__proto__], [Object.prototype] itself. *)
Definition objectPrototypeMembers : list str :=
  [ lit "constructor"; lit "hasOwnProperty"; lit "isPrototypeOf";
    lit "propertyIsEnumerable"; lit "toLocaleString"; lit "toString";
    lit "valueOf"; lit "__proto__"; lit "__defineGetter__";
    lit "__defineSetter__"; lit "__lookupGetter__"; lit "__lookupSetter__" ].

Definition isObjectPrototypeMember (key : str) : bool :=
  existsb (eqb key) objectPrototypeMembers.

(** What such a lookup evaluates to, and with it what the resolver below
    returns at run time: a string, or the member of [Object.prototype] of
    that name, which is no string. *)
Inductive Value :=
  | Text (s : str)
  | Member (name : str).

(** [table[key]], [None] standing for [undefined]. *)
Definition get (table : Table) (key : str) : option Value :=
  match find (fun entry => eqb (fst entry) key) table with
  | Some entry => Some (Text (snd entry))
  | None => if isObjectPrototypeMember key then Some (Member key) else None
  end.

Definition keys (table : Table) : list str := map fst table.

Definition shiftedNumberMap : Table :=
  [ (lit "Digit1", lit "!"); (lit "Digit2", lit "@"); (lit "Digit3", lit "#");
    (lit "Digit4", lit "$"); (lit "Digit5", lit "%"); (lit "Digit6", lit "^");
    (lit "Digit7", lit "&"); (lit "Digit8", lit "*"); (lit "Digit9", lit "(");
    (lit "Digit0", lit ")") ].

(** The shifted [Quote] is the double quote, code unit 34. *)
Definition shiftedSymbolMap : Table :=
  [ (lit "Backquote", lit "~"); (lit "Minus", lit "_"); (lit "Equal", lit "+");
    (lit "BracketLeft", lit "{"); (lit "BracketRight", lit "}");
    (lit "Backslash", lit "|"); (lit "Semicolon", lit ":");
    (lit "Quote", [34]); (lit "Comma", lit "<"); (lit "Period", lit ">");
    (lit "Slash", lit "?") ].

(** The unshifted [Backslash] is the backslash, code unit 92. *)
Definition unshiftedSymbolMap : Table :=
  [ (lit "Backquote", lit "`"); (lit "Minus", lit "-"); (lit "Equal", lit "=");
    (lit "BracketLeft", lit "["); (lit "BracketRight", lit "]");
    (lit "Backslash", [92]); (lit "Semicolon", lit ";");
    (lit "Quote", lit "'"); (lit "Comma", lit ","); (lit "Period", lit ".");
    (lit "Slash", lit "/") ].

(** A [Set] of strings, by the list of the values it was built from;
    [has] ignores the repetitions. *)
Definition has (set : list str) (key : str) : bool := existsb (eqb key) set.

Definition forceCodeMappedCodes : list str :=
  keys shiftedNumberMap ++ keys shiftedSymbolMap ++ keys unshiftedSymbolMap
  ++ [ lit "NumpadAdd"; lit "NumpadSubtract"; lit "NumpadMultiply";
       lit "NumpadDivide"; lit "NumpadDecimal" ].

(** [table[code]] used as a condition and then returned: what the lookup
    finds, unless it is the empty string. Functions and objects are
    truthy, so a member of [Object.prototype] is returned. *)
Definition truthyEntry (table : Table) (key : str) : option Value :=
  match get table key with
  | Some (Text []) => None
  | found => found
  end.

Definition isLetterKey (code : str) : bool :=
  testPrefixClass (lit "Key") isUpperAZ 1 1 code.

(** [mapPrintableCharacter]; [None] is [null]. *)
Definition mapPrintableCharacter (code : str) (shift : bool)
    : option Value :=
  if eqb code (lit "Space") then Some (Text (lit " "))
  else if isLetterKey code then
    let letter := sliceFrom code 3 in
    Some (Text (if shift then letter else letterToLowerCase letter))
  else if testPrefixClass (lit "Digit") isDigit 1 1 code then
    if shift then get shiftedNumberMap code
    else Some (Text (sliceFrom code 5))
  else
    let numeric := sliceFrom code (len (lit "Numpad")) in
    if startsWith (lit "Numpad") code && (len code =? len (lit "Numpad0"))
       && testPrefixClass [] isDigit 1 1 numeric
    then Some (Text numeric)
    else if eqb code (lit "NumpadAdd") then Some (Text (lit "+"))
    else if eqb code (lit "NumpadSubtract") then Some (Text (lit "-"))
    else if eqb code (lit "NumpadMultiply") then Some (Text (lit "*"))
    else if eqb code (lit "NumpadDivide") then Some (Text (lit "/"))
    else if eqb code (lit "NumpadDecimal") then Some (Text (lit "."))
    else
      match (if shift then truthyEntry shiftedSymbolMap code else None) with
      | Some symbol => Some symbol
      | None =>
          if negb shift then truthyEntry unshiftedSymbolMap code else None
      end.

Definition nonTextKeyCodes : list str :=
  [ lit "Escape"; lit "Enter"; lit "NumpadEnter"; lit "Tab"; lit "Backspace";
    lit "Delete"; lit "ArrowLeft"; lit "ArrowRight"; lit "ArrowUp";
    lit "ArrowDown"; lit "Home"; lit "End"; lit "PageUp"; lit "PageDown";
    lit "Insert"; lit "CapsLock"; lit "NumLock"; lit "ScrollLock";
    lit "Pause"; lit "PrintScreen"; lit "ShiftLeft"; lit "ShiftRight";
    lit "ControlLeft"; lit "ControlRight"; lit "AltLeft"; lit "AltRight";
    lit "MetaLeft"; lit "MetaRight" ].

Definition isControl (c : Z) : bool := (c <? 32) || (c =? 127).
Definition isHighSurrogate (c : Z) : bool := (55296 <=? c) && (c <=? 56319).
Definition isLowSurrogate (c : Z) : bool := (56320 <=? c) && (c <=? 57343).

(** [for (const char of value)] walks the string by code points: a high
    surrogate followed by a low one is a single [char], and
    [char.charCodeAt(0)] is the first code unit of each. *)
Fixpoint hasControlCharacters (value : str) : bool :=
  match value with
  | [] => false
  | first :: rest =>
      if isControl first then true
      else match rest with
           | second :: rest' =>
               if isHighSurrogate first && isLowSurrogate second
               then hasControlCharacters rest'
               else hasControlCharacters rest
           | [] => false
           end
  end.

Definition isFunctionKey (code : str) : bool :=
  testPrefixClass (lit "F") isDigit 1 2 code.

(** [resolveTextFromGlobalEvent]; it returns the composed text, a letter
    of the key code or what the table resolver returned. *)
Definition resolveTextFromGlobalEvent (event : GlobalKeyPayload)
    : option Value :=
  if ctrl event || meta event || alt event then None
  else if has nonTextKeyCodes (code event) then None
  else if isFunctionKey (code event) then None
  else
    let mapped := mapPrintableCharacter (code event) (shift event) in
    let normalized :=
      match text event with
      | Some raw => removeCarriageReturns raw
      | None => []
      end in
    let hasValidRaw :=
      (0 <? len normalized) && negb (hasControlCharacters normalized) in
    if isLetterKey (code event) then
      if hasValidRaw && negb (testPrefixClass [] isAsciiLetter 1 1 normalized)
      then Some (Text normalized)
      else
        let letter := sliceFrom (code event) 3 in
        let caps :=
          match caps event with Some true => true | _ => false end in
        let uppercase := negb (Bool.eqb (shift event) caps) in
        Some (Text (if uppercase then letter else letterToLowerCase letter))
    else
      match (if has forceCodeMappedCodes (code event) then mapped else None)
      with
      | Some character => Some character
      | None => if negb hasValidRaw then None else Some (Text normalized)
      end.

(** ** The component: properties, state and the clipboard bridge *)

(** The properties the component is rendered with. [messages] is kept as
    the author user names of the messages, the only part of a message the
    component reads. The callbacks are the parent's: [onChange] stores the
    text it is given as the next [value], so [value] is carried in the
    state below; [onSubmit] and [onCancel] belong to the native field of
    the [ime] mode. *)
Record ChatInputProps := {
  messages : list str;
  maxLength : Z;
  mode : ChatInputMode;
  captureActive : bool;
}.

Record State := {
  value : str;
  selectionStart : Z;
  selectionEnd : Z;
  suggestions : list Suggestion;
  showSuggestions : bool;
  activeIndex : Z;
}.

(** What the two commands of the host reply during one key event:
    [write_clipboard_text] resolves ([true]) or rejects, and
    [read_clipboard_text] resolves with the clipboard text or rejects
    ([None]). *)
Record Bridge := {
  write_clipboard_text : str -> bool;
  read_clipboard_text : option str;
}.

Definition setSelection (a b : Z) (st : State) : State :=
  {| value := value st; selectionStart := a; selectionEnd := b;
     suggestions := suggestions st; showSuggestions := showSuggestions st;
     activeIndex := activeIndex st |}.

Definition setValue (v : str) (st : State) : State :=
  {| value := v; selectionStart := selectionStart st;
     selectionEnd := selectionEnd st; suggestions := suggestions st;
     showSuggestions := showSuggestions st; activeIndex := activeIndex st |}.

Definition setShowSuggestions (show : bool) (st : State) : State :=
  {| value := value st; selectionStart := selectionStart st;
     selectionEnd := selectionEnd st; suggestions := suggestions st;
     showSuggestions := show; activeIndex := activeIndex st |}.

Definition setActiveIndex (update : Z -> Z) (st : State) : State :=
  {| value := value st; selectionStart := selectionStart st;
     selectionEnd := selectionEnd st; suggestions := suggestions st;
     showSuggestions := showSuggestions st;
     activeIndex := update (activeIndex st) |}.

(** ** Text buffer and selection *)

Definition updateSelection (start end_ : Z) (st : State) : State :=
  setSelection (clamp start 0 (len (value st)))
               (clamp end_ 0 (len (value st))) st.

Definition applyValueAndSelection (nextValue : str)
    (nextSelectionStart nextSelectionEnd : Z) (st : State) : State :=
  let clampedStart := clamp nextSelectionStart 0 (len nextValue) in
  let clampedEnd := clamp nextSelectionEnd 0 (len nextValue) in
  setSelection clampedStart clampedEnd (setValue nextValue st).

Definition replaceSelectionWith (insertText : str) (st : State) : State :=
  let normalized := toNormalizedRange (selectionStart st) (selectionEnd st) in
  let nextValue :=
    slice (value st) 0 (start normalized) ++ insertText
    ++ sliceFrom (value st) (end_ normalized) in
  let nextCaret := start normalized + len insertText in
  applyValueAndSelection nextValue nextCaret nextCaret st.

Definition insertSuggestion (suggestion : Suggestion) (st : State) : State :=
  let normalized := toNormalizedRange (selectionStart st) (selectionEnd st) in
  let before := slice (value st) 0 (start normalized) in
  let after := sliceFrom (value st) (end_ normalized) in
  let lastWhitespace :=
    Z.max (Z.max (lastIndexOf before 32) (lastIndexOf before 9))
          (lastIndexOf before 10) in
  let wordStart := lastWhitespace + 1 in
  let replacement :=
    match suggestion with
    | Mention name => lit "@" ++ name
    | Emoji entry => emoji entry
    end in
  let nextBefore := slice before 0 wordStart ++ replacement ++ lit " " in
  let nextValue := nextBefore ++ after in
  let nextCaret := len nextBefore in
  setShowSuggestions false
    (applyValueAndSelection nextValue nextCaret nextCaret st).

Definition moveCaret (delta : Z) (extend : bool) (st : State) : State :=
  if extend then
    let nextEnd := clamp (selectionEnd st + delta) 0 (len (value st)) in
    updateSelection (selectionStart st) nextEnd st
  else
    let normalized :=
      toNormalizedRange (selectionStart st) (selectionEnd st) in
    if negb (selectionStart st =? selectionEnd st) then
      let collapsedTo :=
        if delta <? 0 then start normalized else end_ normalized in
      updateSelection collapsedTo collapsedTo st
    else
      let next := clamp (end_ normalized + delta) 0 (len (value st)) in
      updateSelection next next st.

Definition moveCaretToBoundary (toEnd extend : bool) (st : State) : State :=
  let next := if toEnd then len (value st) else 0 in
  if extend then updateSelection (selectionStart st) next st
  else updateSelection next next st.

Definition deleteBackward (st : State) : State :=
  let normalized := toNormalizedRange (selectionStart st) (selectionEnd st) in
  if negb (start normalized =? end_ normalized) then replaceSelectionWith [] st
  else if start normalized =? 0 then st
  else
    let nextValue :=
      slice (value st) 0 (start normalized - 1)
      ++ sliceFrom (value st) (start normalized) in
    let nextCaret := start normalized - 1 in
    applyValueAndSelection nextValue nextCaret nextCaret st.

Definition deleteForward (st : State) : State :=
  let normalized := toNormalizedRange (selectionStart st) (selectionEnd st) in
  if negb (start normalized =? end_ normalized) then replaceSelectionWith [] st
  else if len (value st) <=? end_ normalized then st
  else
    let nextValue :=
      slice (value st) 0 (end_ normalized)
      ++ sliceFrom (value st) (end_ normalized + 1) in
    applyValueAndSelection nextValue (end_ normalized) (end_ normalized) st.

(** [remainingChars] and [isOverLimit] of the rendering. *)
Definition remainingChars (props : ChatInputProps) (st : State) : Z :=
  maxLength props - len (trim (value st)).

Definition isOverLimit (props : ChatInputProps) (st : State) : bool :=
  remainingChars props st <? 0.

(** ** Key event interpreter *)

Definition isEmpty (s : str) : bool :=
  match s with [] => true | _ => false end.

(** [handleClipboardShortcut]: whether the event was a clipboard shortcut,
    and the state it leaves. A rejected write is caught and logged. *)
Definition handleClipboardShortcut (bridge : Bridge)
    (event : GlobalKeyPayload) (st : State) : bool * State :=
  let isCtrlOrMeta := ctrl event || meta event in
  if negb isCtrlOrMeta || alt event
     || match phase event with down => false | up => true end
  then (false, st)
  else
    let normalized :=
      toNormalizedRange (selectionStart st) (selectionEnd st) in
    let selectedText :=
      slice (value st) (start normalized) (end_ normalized) in
    if eqb (code event) (lit "KeyA") then
      (true, updateSelection 0 (len (value st)) st)
    else if eqb (code event) (lit "KeyC") then
      if isEmpty selectedText then (true, st)
      else if write_clipboard_text bridge selectedText then (true, st)
      else (true, st)
    else if eqb (code event) (lit "KeyX") then
      if isEmpty selectedText then (true, st)
      else if write_clipboard_text bridge selectedText
      then (true, replaceSelectionWith [] st)
      else (true, replaceSelectionWith [] st)
    else if eqb (code event) (lit "KeyV") then
      let clipboard :=
        match read_clipboard_text bridge with
        | Some text => text
        | None => []
        end in
      if isEmpty clipboard then (true, st)
      else (true, replaceSelectionWith clipboard st)
    else (false, st).

(** [suggestions[activeIndex]], [None] for [undefined]. *)
Definition suggestionAt (st : State) : option Suggestion :=
  if activeIndex st <? 0 then None
  else nth_error (suggestions st) (Z.to_nat (activeIndex st)).

Definition suggestionsOpen (st : State) : bool :=
  showSuggestions st && (0 <? Z.of_nat (length (suggestions st))).

Definition nextIndex (st : State) (prev : Z) : Z :=
  Z.rem (prev + 1) (Z.of_nat (length (suggestions st))).

Definition previousIndex (st : State) (prev : Z) : Z :=
  if prev =? 0 then Z.of_nat (length (suggestions st)) - 1 else prev - 1.

(** [insertSuggestion(suggestions[activeIndex])]; reading [type] of
    [undefined] throws before any state is set, which is [None]. *)
Definition insertActiveSuggestion (st : State) : option State :=
  match suggestionAt st with
  | Some suggestion => Some (insertSuggestion suggestion st)
  | None => None
  end.

(** What a call of the interpreter comes to. It resolves with an action
    and leaves a state; or its promise is rejected by an exception; or it
    calls [replaceSelectionWith] with a member of [Object.prototype] in
    place of a string before it resolves with ["none"]. In the last case
    the content receives the rendering that the host gives of the member,
    and the caret is set from the [length] property of the member: the
    number of parameters of a function, and nothing for [Object.prototype]
    itself, which leaves offsets that are no numbers. Neither the
    renderings nor such offsets are part of this embedding: it records
    the member and follows the component no further. *)
Inductive Outcome :=
  | Returns (action : ChatInputKeyAction) (next : State)
  | Throws
  | InsertsMember (name : str).

(** The state a call leaves, when it leaves one of [State]. *)
Definition nextState (outcome : Outcome) : option State :=
  match outcome with
  | Returns _ next => Some next
  | Throws | InsertsMember _ => None
  end.

Definition handleFocuslessGlobalKey (bridge : Bridge)
    (event : GlobalKeyPayload) (st : State) : Outcome :=
  match phase event with
  | up => Returns none st
  | down =>
    let (handled, st1) := handleClipboardShortcut bridge event st in
    if handled then Returns none st1
    else if negb (ctrl event) && negb (meta event) && negb (alt event) then
      let key := eqb (code event) in
      if key (lit "Escape") then Returns cancel st
      else if key (lit "ArrowDown") && suggestionsOpen st then
        Returns none (setActiveIndex (nextIndex st) st)
      else if key (lit "ArrowUp") && suggestionsOpen st then
        Returns none (setActiveIndex (previousIndex st) st)
      else if key (lit "Tab") && suggestionsOpen st then
        match insertActiveSuggestion st with
        | Some inserted => Returns none inserted
        | None => Throws
        end
      else if key (lit "Enter") || key (lit "NumpadEnter") then
        Returns submit st
      else if key (lit "Backspace") then Returns none (deleteBackward st)
      else if key (lit "Delete") then Returns none (deleteForward st)
      else if key (lit "ArrowLeft") then
        Returns none (moveCaret (-1) (shift event) st)
      else if key (lit "ArrowRight") then
        Returns none (moveCaret 1 (shift event) st)
      else if key (lit "Home") then
        Returns none (moveCaretToBoundary false (shift event) st)
      else if key (lit "End") then
        Returns none (moveCaretToBoundary true (shift event) st)
      else
        match resolveTextFromGlobalEvent event with
        | Some (Text textFromEvent) =>
            Returns none (replaceSelectionWith textFromEvent st)
        | Some (Member name) => InsertsMember name
        | None =>
            match mapPrintableCharacter (code event) (shift event) with
            | Some (Text printable) =>
                Returns none (replaceSelectionWith printable st)
            | Some (Member name) => InsertsMember name
            | None => Returns none st
            end
        end
    else Returns none st
  end.

Definition handleGlobalKey (props : ChatInputProps) (bridge : Bridge)
    (event : GlobalKeyPayload) (st : State) : Outcome :=
  match mode props with
  | focusless => handleFocuslessGlobalKey bridge event st
  | ime => Returns none st
  end.

(** What step 3 of the interpreter, text production, hands to
    [replaceSelectionWith] for an event that reaches it. *)
Definition producedText (event : GlobalKeyPayload) : option Value :=
  match resolveTextFromGlobalEvent event with
  | Some textFromEvent => Some textFromEvent
  | None => mapPrintableCharacter (code event) (shift event)
  end.

(** [focusImeInput] of the handle: the native field, when it is rendered,
    holds [value]. *)
Definition focusImeInput (st : State) : State :=
  let position := len (value st) in
  updateSelection position position st.

(** ** Effects and the suggestion session *)

(** [Array.from(new Set(names))]: first occurrences, in order. *)
Fixpoint distinct (seen names : list str) : list str :=
  match names with
  | [] => []
  | name :: rest =>
      if has seen name then distinct seen rest
      else name :: distinct (name :: seen) rest
  end.

Definition usernames (props : ChatInputProps) : list str :=
  distinct [] (messages props).

(** The effect that brings a selection left behind by a shorter [value]
    back into range. *)
Definition clampSelectionEffect (st : State) : State :=
  setSelection (clamp (selectionStart st) 0 (len (value st)))
               (clamp (selectionEnd st) 0 (len (value st))) st.

Section Suggestions.

(** [String.prototype.toLowerCase], and [findEmojiSuggestions] of
    [lib/emoji]; the session below does not depend on what they return. *)
Variable toLowerCase : str -> str.
Variable findEmojiSuggestions : str -> list EmojiSuggestion.

Definition lastWord (st : State) : str :=
  let hasExplicitSelection := negb (selectionStart st =? selectionEnd st) in
  let caret :=
    if hasExplicitSelection
    then Z.max (selectionStart st) (selectionEnd st)
    else selectionEnd st in
  let context := slice (value st) 0 caret in
  match pop (splitWhiteSpace context) with
  | Some word => word
  | None => []
  end.

(** The effect that recomputes the candidates. *)
Definition recomputeSuggestions (names : list str) (st : State) : State :=
  let word := lastWord st in
  let nextSuggestions :=
    if startsWith (lit "@") word then
      let query := toLowerCase (sliceFrom word 1) in
      map Mention (filter (fun u => startsWith query (toLowerCase u)) names)
    else if startsWith (lit ":") word then
      let query := toLowerCase (sliceFrom word 1) in
      map Emoji (findEmojiSuggestions query)
    else [] in
  let shouldShow := (0 <? Z.of_nat (length nextSuggestions)) in
  {| value := value st; selectionStart := selectionStart st;
     selectionEnd := selectionEnd st; suggestions := nextSuggestions;
     showSuggestions := shouldShow; activeIndex := 0 |}.

Definition sameText (a b : State) : bool :=
  (selectionEnd a =? selectionEnd b) && (selectionStart a =? selectionStart b)
  && eqb (value a) (value b).

(** The state once the effects have run after a change: the selection is
    clamped, and the candidates are recomputed when [value], the selection
    or the user names differ from those of the previous render [prev]. *)
Definition runEffects (namesChanged : bool) (names : list str)
    (prev st : State) : State :=
  let clamped := clampSelectionEffect st in
  if namesChanged || negb (sameText prev st) || negb (sameText st clamped)
  then recomputeSuggestions names clamped
  else clamped.

Definition initialState (v : str) : State :=
  {| value := v; selectionStart := 0; selectionEnd := 0; suggestions := [];
     showSuggestions := false; activeIndex := 0 |}.

(** What reaches the component between two renders. *)
Inductive Input :=
  | GlobalKey (bridge : Bridge) (event : GlobalKeyPayload)
  | FocusImeInput
  | ViewportMouseDown
  | SuggestionMouseDown (index : nat)
  | NativeChange (v : str) (selStart selEnd : Z)
  | NativeSelect (selStart selEnd : Z)
  | NativeKeyDown (key : str).

(** The handler of each input; [None] when it leaves no state (it throws,
    or it hands a member of [Object.prototype] to [replaceSelectionWith])
    and when the element it belongs to is not rendered in the current
    mode and state. *)
Definition dispatch (props : ChatInputProps) (input : Input) (st : State)
    : option State :=
  match input, mode props with
  | GlobalKey bridge event, _ =>
      nextState (handleGlobalKey props bridge event st)
  | FocusImeInput, _ => Some (focusImeInput st)
  | ViewportMouseDown, focusless =>
      Some (updateSelection (len (value st)) (len (value st)) st)
  | SuggestionMouseDown index, _ =>
      if suggestionsOpen st
      then option_map (fun s => insertSuggestion s st)
                      (nth_error (suggestions st) index)
      else None
  | NativeChange v selStart selEnd, ime =>
      Some (setValue v (updateSelection selStart selEnd st))
  | NativeSelect selStart selEnd, ime =>
      Some (updateSelection selStart selEnd st)
  | NativeKeyDown key, ime =>
      if eqb key (lit "ArrowDown") && suggestionsOpen st then
        Some (setActiveIndex (nextIndex st) st)
      else if eqb key (lit "ArrowUp") && suggestionsOpen st then
        Some (setActiveIndex (previousIndex st) st)
      else if eqb key (lit "Tab") && suggestionsOpen st then
        insertActiveSuggestion st
      else Some st
  | _, _ => None
  end.

(** The states the component can be in after its effects have run, as
    far as the embedding follows it: after mounting, after an input whose
    handler leaves a state, and after the parent has rendered it with
    other properties or another [value], [namesChanged] telling whether
    [messages] was replaced. *)
Inductive reachable : ChatInputProps -> State -> Prop :=
  | reach_mount props v :
      reachable props
        (runEffects true (usernames props) (initialState v) (initialState v))
  | reach_input props st input st' :
      reachable props st ->
      dispatch props input st = Some st' ->
      reachable props (runEffects false (usernames props) st st')
  | reach_render props st props' v namesChanged :
      reachable props st ->
      reachable props'
        (runEffects namesChanged (usernames props') st (setValue v st)).

End Suggestions.

(** ** Vocabulary of the specification *)

(** Both offsets of the selection lie within the content. *)
Definition inRange (st : State) : Prop :=
  0 <= selectionStart st <= len (value st)
  /\ 0 <= selectionEnd st <= len (value st).

(** A string that encodes exactly one Unicode scalar value: one code unit
    that is no surrogate, or a high surrogate followed by a low one. *)
Definition isScalarValue (s : str) : bool :=
  match s with
  | [c] =>
      (0 <=? c) && (c <=? 65535)
      && negb (isHighSurrogate c) && negb (isLowSurrogate c)
  | [hi; lo] => isHighSurrogate hi && isLowSurrogate lo
  | _ => false
  end.

(** A string the text-production step may insert: not empty, and without
    a code unit below 0x20 or equal to 0x7F. *)
Definition printable (s : str) : Prop :=
  s <> [] /\ forall c, In c s -> ~ c < 32 /\ c <> 127.

(** [event.caps === true]. *)
Definition capsOn (event : GlobalKeyPayload) : bool :=
  match caps event with Some true => true | _ => false end.

(** The operations of the text buffer and selection model, by the
    function of the component that carries each out. *)
Inductive EditOp :=
  | SetSelection (a b : Z)
  | ReplaceSelection (insertText : str)
  | DeleteBackward
  | DeleteForward
  | MoveCaret (delta : Z) (extend : bool)
  | MoveToBoundary (toEnd extend : bool)
  | SelectAll
  | InsertSuggestion (suggestion : Suggestion).

Definition runOp (op : EditOp) (st : State) : State :=
  match op with
  | SetSelection a b => updateSelection a b st
  | ReplaceSelection insertText => replaceSelectionWith insertText st
  | DeleteBackward => deleteBackward st
  | DeleteForward => deleteForward st
  | MoveCaret delta extend => moveCaret delta extend st
  | MoveToBoundary toEnd extend => moveCaretToBoundary toEnd extend st
  | SelectAll => updateSelection 0 (len (value st)) st
  | InsertSuggestion suggestion => insertSuggestion suggestion st
  end.

Definition withMaxLength (limit : Z) (props : ChatInputProps)
    : ChatInputProps :=
  {| messages := messages props; maxLength := limit; mode := mode props;
     captureActive := captureActive props |}.

(** The suggestion session is consistent: while it is shown, the active
    index designates one of the candidates. *)
Definition sessionOk (st : State) : Prop :=
  showSuggestions st = true ->
  0 <= activeIndex st < Z.of_nat (length (suggestions st)).

(** The separators [insertSuggestion] looks for before the selection:
    space, tab and newline. *)
Definition isBreak (c : Z) : bool := (c =? 32) || (c =? 9) || (c =? 10).

(** Two states with the same suggestion session. *)
Definition sameSession (a b : State) : Prop :=
  suggestions b = suggestions a
  /\ showSuggestions b = showSuggestions a
  /\ activeIndex b = activeIndex a.

(** Inputs used in the examples. *)
Definition keyDown (code : str) (text : option str) (shift : bool)
    : GlobalKeyPayload :=
  {| code := code; text := text; phase := down; ctrl := false;
     shift := shift; caps := None; alt := false; meta := false;
     repeat := false; timestamp_ms := 0 |}.

Definition shortcut (code : str) : GlobalKeyPayload :=
  {| code := code; text := None; phase := down; ctrl := true;
     shift := false; caps := None; alt := false; meta := false;
     repeat := false; timestamp_ms := 0 |}.

Definition textState (v : str) (selStart selEnd : Z) : State :=
  {| value := v; selectionStart := selStart; selectionEnd := selEnd;
     suggestions := []; showSuggestions := false; activeIndex := 0 |}.

Definition brokenBridge : Bridge :=
  {| write_clipboard_text := fun _ => false; read_clipboard_text := None |}.

Definition focuslessProps (limit : Z) : ChatInputProps :=
  {| messages := []; maxLength := limit; mode := focusless;
     captureActive := true |}.

(** ** Rendering *)

(** The projections the focusless surface is drawn from: whether a
    selection is shown, and the three segments of [value]. *)
Definition hasSelection (st : State) : bool :=
  let normalizedSelection :=
    toNormalizedRange (selectionStart st) (selectionEnd st) in
  negb (start normalizedSelection =? end_ normalizedSelection).

Definition beforeText (st : State) : str :=
  let normalizedSelection :=
    toNormalizedRange (selectionStart st) (selectionEnd st) in
  slice (value st) 0 (start normalizedSelection).

Definition selectedText (st : State) : str :=
  let normalizedSelection :=
    toNormalizedRange (selectionStart st) (selectionEnd st) in
  slice (value st) (start normalizedSelection) (end_ normalizedSelection).

Definition afterText (st : State) : str :=
  let normalizedSelection :=
    toNormalizedRange (selectionStart st) (selectionEnd st) in
  sliceFrom (value st) (end_ normalizedSelection).

(** ** Sending: [sendMessage] of [contexts/ChatContext.tsx] *)

Module Chat.

Record ChatLimits := {
  maxMessageLength : Z;
  rateLimitCount : Z;
  rateLimitWindowMs : Z;
}.

Definition FALLBACK_CHAT_LIMITS : ChatLimits :=
  {| maxMessageLength := 280; rateLimitCount := 4;
     rateLimitWindowMs := 5000 |}.

(** The three messages [setSendError] is given, by the value each
    interpolates: the length limit; the seconds to wait, [None] when the
    arithmetic on an empty history yields NaN; the message of the error
    caught, or the fixed text when what was thrown is no [Error]. *)
Inductive SendError :=
  | MessageExceeds (limit : Z)
  | RateLimitHit (seconds : option Z)
  | Failure (message : str).

(** [sentTimestampsByScopeRef.current], a [Map] from scope key to the
    times of the messages sent, oldest first. *)
Definition Timestamps := list (str * list Z).

Definition mapGet (m : Timestamps) (key : str) : option (list Z) :=
  option_map snd (find (fun entry => eqb (fst entry) key) m).

Fixpoint mapSet (m : Timestamps) (key : str) (v : list Z) : Timestamps :=
  match m with
  | [] => [(key, v)]
  | (k, old) :: rest =>
      if eqb k key then (k, v) :: rest else (k, old) :: mapSet rest key v
  end.

(** How the [try] block ends: the job id was refreshed, the game focused
    and the message published on that job's channel; or one of the three
    calls threw, an [Error] with a message or something else. *)
Inductive Delivery :=
  | Published (activeJobId : str)
  | Thrown (message : option str).

(** What one call does: the value returned, the call to [setSendError] if
    any ([Some None] is [setSendError(null)]), the history it leaves and
    the channel and content published. *)
Record SendResult := {
  sent : bool;
  errorSet : option (option SendError);
  timestamps : Timestamps;
  published : option (str * str);
}.

(** [Math.ceil(ms / 1000)] for an integer [ms]. *)
Definition ceilSeconds (ms : Z) : Z := - ((- ms) / 1000).

Definition sendMessage (chatLimits : ChatLimits) (scopeKey : str)
    (sentTimestampsByScope : Timestamps) (text : str) (now : Z)
    (delivery : Delivery) : SendResult :=
  let content := trim text in
  if isEmpty content then
    {| sent := false; errorSet := None;
       timestamps := sentTimestampsByScope; published := None |}
  else if maxMessageLength chatLimits <? len content then
    {| sent := false;
       errorSet := Some (Some (MessageExceeds (maxMessageLength chatLimits)));
       timestamps := sentTimestampsByScope; published := None |}
  else
    let cutoff := now - rateLimitWindowMs chatLimits in
    let recentForUser :=
      filter (fun timestamp => cutoff <? timestamp)
        match mapGet sentTimestampsByScope scopeKey with
        | Some sentTimes => sentTimes
        | None => []
        end in
    if rateLimitCount chatLimits <=? len recentForUser then
      let retryAfterMs :=
        match recentForUser with
        | first :: _ =>
            let retryAt := first + rateLimitWindowMs chatLimits in
            Some (Z.max 0 (retryAt - now))
        | [] => None
        end in
      {| sent := false;
         errorSet :=
           Some (Some (RateLimitHit (option_map ceilSeconds retryAfterMs)));
         timestamps := sentTimestampsByScope; published := None |}
    else
      match delivery with
      | Published activeJobId =>
          {| sent := true; errorSet := Some None;
             timestamps :=
               mapSet sentTimestampsByScope scopeKey (recentForUser ++ [now]);
             published := Some (activeJobId, content) |}
      | Thrown message =>
          {| sent := false;
             errorSet :=
               Some (Some (Failure
                 match message with
                 | Some errorMessage => errorMessage
                 | None => lit "Failed to send message."
                 end));
             timestamps := sentTimestampsByScope; published := None |}
      end.

(** Calls made one after the other, each completing before the next
    starts. *)
Record Attempt := {
  scope : str;
  body : str;
  clock : Z;
  outcome : Delivery;
}.

Definition History : Type := Timestamps * list (str * Z).

(** One more call: the history the reference holds afterwards, and the
    log of the messages published so far, by scope key and time. *)
Definition sendNext (chatLimits : ChatLimits) (h : History) (a : Attempt)
    : History :=
  let result :=
    sendMessage chatLimits (scope a) (fst h) (body a) (clock a) (outcome a) in
  (timestamps result,
   if sent result then snd h ++ [(scope a, clock a)] else snd h).

Definition sendAll (chatLimits : ChatLimits) (attempts : list Attempt)
    : History :=
  fold_left (sendNext chatLimits) attempts ([], []).

Definition deliveredTimes (scopeKey : str) (log : list (str * Z)) : list Z :=
  map snd (filter (fun entry => eqb (fst entry) scopeKey) log).

(** [Date.now()] never goes back from one call to the next. *)
Fixpoint nondecreasingFrom (bound : Z) (times : list Z) : Prop :=
  match times with
  | [] => True
  | t :: rest => bound <= t /\ nondecreasingFrom t rest
  end.

Definition nondecreasing (times : list Z) : Prop :=
  match times with
  | [] => True
  | t :: rest => nondecreasingFrom t rest
  end.

End Chat.

(** ** Settings: the API address of [lib/store.ts] *)

Module Store.

Definition DEFAULT_API_HOST : str := lit "bloxchat.logix.lol".
Definition DEFAULT_API_URL : str := lit "https://" ++ DEFAULT_API_HOST.

(** Whether the character [c] matches the pattern character [p] under the
    [i] flag: the characters of the patterns here are ASCII, and an ASCII
    letter matches its two cases only. *)
Definition matchesIgnoreCase (p c : Z) : bool :=
  (c =? p) || (isLowerAZ p && (c =? p - 32))
  || (isUpperAZ p && (c =? p + 32)).

(** [/^p/i.test(s)] for a literal [p]. *)
Fixpoint startsWithIgnoreCase (p s : str) : bool :=
  match p, s with
  | [], _ => true
  | x :: p', c :: s' => matchesIgnoreCase x c && startsWithIgnoreCase p' s'
  | _ :: _, [] => false
  end.

(** [s.replace(/^p/i, r)]. *)
Definition replacePrefixIgnoreCase (p r s : str) : str :=
  if startsWithIgnoreCase p s then r ++ skipn (length p) s else s.

Fixpoint dropSlashes (s : str) : str :=
  match s with
  | c :: rest => if c =? 47 then dropSlashes rest else s
  | [] => []
  end.

(** [s.replace(/\/+$/, "")]. *)
Definition stripTrailingSlashes (s : str) : str := rev (dropSlashes (rev s)).

(** [/^https?:\/\//i.test(s)]. *)
Definition hasProtocol (s : str) : bool :=
  startsWithIgnoreCase (lit "https://") s
  || startsWithIgnoreCase (lit "http://") s.

Definition normalizeApiUrl (value : option str) : str :=
  let trimmed := trim match value with Some v => v | None => [] end in
  if isEmpty trimmed then DEFAULT_API_URL
  else
    let withProtocol :=
      if hasProtocol trimmed then trimmed else lit "https://" ++ trimmed in
    stripTrailingSlashes withProtocol.

Definition toWsUrl (apiUrl : str) : str :=
  replacePrefixIgnoreCase (lit "http") (lit "ws")
    (replacePrefixIgnoreCase (lit "https") (lit "wss") apiUrl).

(** [setApiUrl] stores the normalized address and [getApiUrl] normalizes
    what the store holds, the default when the key is missing. *)
Definition setApiUrl (value : str) : str := normalizeApiUrl (Some value).

Definition getApiUrl (stored : option str) : str :=
  normalizeApiUrl
    (Some match stored with Some v => v | None => DEFAULT_API_URL end).

End Store.

(** ** Further vocabulary *)

(** [normalized] and [hasValidRaw] of [resolveTextFromGlobalEvent]: the
    composed text without its carriage returns, and whether it is usable,
    that is not empty and free of control characters. *)
Definition normalizedText (event : GlobalKeyPayload) : str :=
  match text event with
  | Some raw => removeCarriageReturns raw
  | None => []
  end.

(** [context] of the effect that recomputes the candidates: the content
    up to the caret, which is the larger offset when a selection exists. *)
Definition contextBeforeCaret (st : State) : str :=
  let hasExplicitSelection := negb (selectionStart st =? selectionEnd st) in
  let caret :=
    if hasExplicitSelection
    then Z.max (selectionStart st) (selectionEnd st)
    else selectionEnd st in
  slice (value st) 0 caret.

Definition usableText (event : GlobalKeyPayload) : bool :=
  (0 <? len (normalizedText event))
  && negb (hasControlCharacters (normalizedText event)).

(** The times recorded for a scope key ([?? []] for a key the map does
    not hold), and what it means for a recorded history to track the log
    of the messages published: from [bound] less the window on, both list
    the same times for every scope key. *)
Definition recorded (m : Chat.Timestamps) (scopeKey : str) : list Z :=
  match Chat.mapGet m scopeKey with
  | Some sentTimes => sentTimes
  | None => []
  end.

Definition tracks (chatLimits : Chat.ChatLimits) (bound : Z)
    (h : Chat.History) : Prop :=
  forall scopeKey cutoff,
    bound - Chat.rateLimitWindowMs chatLimits <= cutoff ->
    filter (fun t => cutoff <? t) (recorded (fst h) scopeKey)
    = filter (fun t => cutoff <? t) (Chat.deliveredTimes scopeKey (snd h)).

(** No scope key has more times recorded than the limit allows. *)
Definition withinLimit (chatLimits : Chat.ChatLimits) (m : Chat.Timestamps)
    : Prop :=
  forall scopeKey,
    len (recorded m scopeKey) <= Z.max 0 (Chat.rateLimitCount chatLimits).

(** * Properties *)

(** ** Strings *)

Lemma len_nonneg (s : str) : 0 <= len s.
Proof. unfold len. lia. Qed.

Lemma len_app (a b : str) : len (a ++ b) = len a + len b.
Proof. unfold len. rewrite length_app. lia. Qed.

Lemma len_cons (x : Z) (s : str) : len (x :: s) = 1 + len s.
Proof. unfold len. simpl length. lia. Qed.

Lemma len_pos (s : str) : s <> [] -> (0 <? len s) = true.
Proof.
  intros H. apply Z.ltb_lt. destruct s; [congruence|].
  unfold len. simpl length. lia.
Qed.

Lemma str_eqb_eq (a b : str) : eqb a b = true <-> a = b.
Proof.
  revert b; induction a as [|x a IH]; intros [|y b]; simpl; split;
    try congruence; try reflexivity.
  - intros H. apply andb_prop in H as [Hxy Hab].
    apply Z.eqb_eq in Hxy. apply IH in Hab. congruence.
  - intros H. injection H as -> ->. rewrite Z.eqb_refl. now apply IH.
Qed.

Lemma firstn_app_exact {A} (a b : list A) : firstn (length a) (a ++ b) = a.
Proof. induction a; simpl; congruence. Qed.

Lemma skipn_app_cons {A} (a b : list A) (x : A) :
  skipn (S (length a)) (a ++ x :: b) = b.
Proof. induction a as [|y a IH]; [reflexivity | exact IH]. Qed.

Lemma len_firstn (s : str) (a : Z) :
  0 <= a <= len s -> len (firstn (Z.to_nat a) s) = a.
Proof. unfold len. intros Ha. rewrite length_firstn. lia. Qed.

Lemma len_skipn (s : str) (a : Z) :
  0 <= a <= len s -> len (skipn (Z.to_nat a) s) = len s - a.
Proof. unfold len. intros Ha. rewrite length_skipn. lia. Qed.

Lemma slice_prefix (s : str) (a : Z) :
  0 <= a <= len s -> slice s 0 a = firstn (Z.to_nat a) s.
Proof.
  intros Ha. unfold slice, relIndex.
  pose proof (len_nonneg s) as Hlen.
  replace (0 <? 0) with false by reflexivity.
  destruct (a <? 0) eqn:Hneg; [apply Z.ltb_lt in Hneg; lia|].
  rewrite !Z.min_l by lia. rewrite Z.sub_0_r. reflexivity.
Qed.

Lemma sliceFrom_suffix (s : str) (a : Z) :
  0 <= a <= len s -> sliceFrom s a = skipn (Z.to_nat a) s.
Proof.
  intros Ha. unfold sliceFrom, relIndex.
  destruct (a <? 0) eqn:Hneg; [apply Z.ltb_lt in Hneg; lia|].
  now rewrite Z.min_l by lia.
Qed.

Lemma slice_inside (s : str) (a b : Z) :
  0 <= a <= b -> b <= len s ->
  slice s a b = firstn (Z.to_nat (b - a)) (skipn (Z.to_nat a) s).
Proof.
  intros Ha Hb. unfold slice, relIndex.
  destruct (a <? 0) eqn:Hna; [apply Z.ltb_lt in Hna; lia|].
  destruct (b <? 0) eqn:Hnb; [apply Z.ltb_lt in Hnb; lia|].
  now rewrite !Z.min_l by lia.
Qed.

Lemma testPrefixClass_one (prefix : str) (class : Z -> bool) (s : str) :
  testPrefixClass prefix class 1 1 s = true ->
  exists c, s = prefix ++ [c] /\ class c = true.
Proof.
  unfold testPrefixClass, startsWith. intros H.
  repeat (apply andb_prop in H as [H ?]).
  apply str_eqb_eq in H.
  rewrite <- (firstn_skipn (length prefix) s), H.
  destruct (skipn (length prefix) s) as [|c [|d rest]]; simpl in *;
    try discriminate.
  exists c. split; [reflexivity|]. now destruct (class c).
Qed.

Lemma isUpperAZ_range (c : Z) : isUpperAZ c = true -> 65 <= c <= 90.
Proof. unfold isUpperAZ. rewrite andb_true_iff, !Z.leb_le. tauto. Qed.

Lemma isDigit_range (c : Z) : isDigit c = true -> 48 <= c <= 57.
Proof. unfold isDigit. rewrite andb_true_iff, !Z.leb_le. tauto. Qed.

Lemma lastIndexOfFrom_bound (i c : Z) (s : str) :
  lastIndexOfFrom i c s = -1
  \/ i <= lastIndexOfFrom i c s < i + len s.
Proof.
  revert i. induction s as [|x s IH]; intros i; [now left|].
  simpl. rewrite len_cons. specialize (IH (i + 1)).
  destruct (0 <=? lastIndexOfFrom (i + 1) c s) eqn:Hlater.
  - apply Z.leb_le in Hlater. right. lia.
  - destruct (x =? c); [right; pose proof (len_nonneg s); lia | now left].
Qed.

Lemma lastIndexOfFrom_absent (i c : Z) (s : str) :
  (forall x, In x s -> x <> c) -> lastIndexOfFrom i c s = -1.
Proof.
  revert i. induction s as [|x s IH]; intros i Habsent; [reflexivity|].
  simpl. rewrite IH by (intros y Hy; apply Habsent; now right).
  simpl. destruct (x =? c) eqn:Hx; [|reflexivity].
  apply Z.eqb_eq in Hx. now destruct (Habsent x (or_introl eq_refl)).
Qed.

Lemma lastIndexOfFrom_app (i c : Z) (a b : str) :
  0 <= i ->
  lastIndexOfFrom i c (a ++ b) =
  if 0 <=? lastIndexOfFrom (i + len a) c b
  then lastIndexOfFrom (i + len a) c b
  else lastIndexOfFrom i c a.
Proof.
  revert i. induction a as [|x a IH]; intros i Hi.
  - simpl. change (len []) with 0. rewrite Z.add_0_r.
    destruct (lastIndexOfFrom_bound i c b) as [H|H].
    + now rewrite H.
    + destruct (0 <=? lastIndexOfFrom i c b) eqn:Hr; [reflexivity|].
      apply Z.leb_gt in Hr. lia.
  - simpl. rewrite IH, len_cons by lia.
    replace (i + (1 + len a)) with (i + 1 + len a) by lia.
    destruct (0 <=? lastIndexOfFrom (i + 1 + len a) c b) eqn:Hr;
      [now rewrite Hr | reflexivity].
Qed.

(** ** Key-code resolver and text production *)

Lemma get_In (table : Table) (key v : str) :
  get table key = Some (Text v) -> In v (map snd table).
Proof.
  unfold get. destruct (find _ table) as [[k w]|] eqn:Hfind.
  - intros [= <-]. apply find_some in Hfind as [Hin _].
    now apply (in_map snd) in Hin.
  - destruct (isObjectPrototypeMember key); discriminate.
Qed.

Lemma get_Member (table : Table) (key name : str) :
  get table key = Some (Member name) ->
  name = key /\ isObjectPrototypeMember key = true.
Proof.
  unfold get. destruct (find _ table); [discriminate|].
  destruct (isObjectPrototypeMember key); [|discriminate].
  now intros [= <-].
Qed.

Lemma truthyEntry_In (table : Table) (key v : str) :
  truthyEntry table key = Some (Text v) -> In v (map snd table).
Proof.
  unfold truthyEntry. destruct (get table key) as [[[|c w]|name]|] eqn:Hget;
    try discriminate.
  intros [= <-]. now apply get_In in Hget.
Qed.

Lemma truthyEntry_Member (table : Table) (key name : str) :
  truthyEntry table key = Some (Member name) ->
  name = key /\ isObjectPrototypeMember key = true.
Proof.
  unfold truthyEntry. destruct (get table key) as [[[|c w]|other]|] eqn:Hget;
    try discriminate.
  intros [= <-]. now apply get_Member in Hget.
Qed.

Lemma has_In (set : list str) (key : str) : has set key = true -> In key set.
Proof.
  unfold has. intros H. apply existsb_exists in H as [k [Hin Heq]].
  apply str_eqb_eq in Heq. now subst.
Qed.

Lemma has_false_eqb (set : list str) (key k : str) :
  has set key = false -> In k set -> eqb key k = false.
Proof.
  unfold has. intros H Hin.
  destruct (eqb key k) eqn:Heq; [|reflexivity].
  assert (existsb (eqb key) set = true)
    by (apply existsb_exists; now exists k).
  congruence.
Qed.

Ltac printable_units :=
  split; [discriminate|];
  let c := fresh "c" in let Hc := fresh "Hc" in
  intros c Hc; simpl in Hc;
  repeat match goal with
         | H : _ \/ _ |- _ => destruct H as [H|H]
         | H : False |- _ => destruct H
         end;
  subst; lia.

Ltac printable_cases H :=
  simpl in H;
  repeat (destruct H as [H|H]; [subst; printable_units|]);
  try destruct H.

Lemma mapPrintableCharacter_printable (code : str) (shift : bool) (s : str) :
  mapPrintableCharacter code shift = Some (Text s) -> printable s.
Proof.
  unfold mapPrintableCharacter, isLetterKey. cbv zeta.
  destruct (eqb code (lit "Space")); [intros [= <-]; printable_units|].
  destruct (testPrefixClass (lit "Key") isUpperAZ 1 1 code) eqn:Hkey.
  { apply testPrefixClass_one in Hkey as [c [-> Hc]].
    intros [= <-]. destruct shift; cbn; [|rewrite Hc];
      apply isUpperAZ_range in Hc; printable_units. }
  destruct (testPrefixClass (lit "Digit") isDigit 1 1 code) eqn:Hdigit.
  { apply testPrefixClass_one in Hdigit as [c [-> Hc]].
    apply isDigit_range in Hc. destruct shift.
    - intros H. apply get_In in H. printable_cases H.
    - intros [= <-]. cbn. printable_units. }
  destruct (startsWith (lit "Numpad") code && (len code =? len (lit "Numpad0"))
            && testPrefixClass [] isDigit 1 1
                 (sliceFrom code (len (lit "Numpad")))) eqn:Hnumpad.
  { apply andb_prop in Hnumpad as [_ Hnum].
    apply testPrefixClass_one in Hnum as [c [Hs Hc]].
    apply isDigit_range in Hc. rewrite Hs. intros [= <-]. printable_units. }
  repeat match goal with
         | |- context [if eqb code ?k then _ else _] =>
             destruct (eqb code k); [intros [= <-]; printable_units|]
         end.
  destruct shift; simpl.
  - destruct (truthyEntry shiftedSymbolMap code) eqn:Hentry; [|discriminate].
    intros [= ->]. apply truthyEntry_In in Hentry. printable_cases Hentry.
  - intros H. apply truthyEntry_In in H. printable_cases H.
Qed.

Lemma mapPrintableCharacter_member (code : str) (shift : bool) (name : str) :
  mapPrintableCharacter code shift = Some (Member name) ->
  name = code /\ isObjectPrototypeMember code = true.
Proof.
  unfold mapPrintableCharacter. cbv zeta.
  repeat match goal with
         | |- context [if ?c then _ else _] =>
             lazymatch c with
             | shift => fail
             | negb shift => fail
             | _ => destruct c; try discriminate
             end
         end.
  - destruct shift; [apply get_Member | discriminate].
  - destruct shift; cbn [negb].
    + destruct (truthyEntry shiftedSymbolMap code) eqn:Hentry;
        [|discriminate].
      intros [= ->]. now apply truthyEntry_Member in Hentry.
    + apply truthyEntry_Member.
Qed.

Lemma hasControlCharacters_sound (s : str) :
  hasControlCharacters s = false -> forall c, In c s -> isControl c = false.
Proof.
  enough (H : (hasControlCharacters s = false ->
               forall c, In c s -> isControl c = false)
              /\ forall x, hasControlCharacters (x :: s) = false ->
                 forall c, In c (x :: s) -> isControl c = false)
    by apply H.
  induction s as [|y s [IHs IHy]].
  - split; [intros _ c []|].
    intros x H c [<-|[]]. simpl in H. now destruct (isControl x).
  - split; [exact (IHy y)|].
    intros x H c Hc. simpl in H.
    destruct (isControl x) eqn:Hx; [discriminate|].
    destruct Hc as [<-|Hc]; [assumption|].
    destruct (isHighSurrogate x && isLowSurrogate y) eqn:Hpair.
    + destruct Hc as [<-|Hc]; [|now apply IHs].
      apply andb_prop in Hpair as [_ Hlow].
      unfold isLowSurrogate in Hlow. unfold isControl. lia.
    + exact (IHy y H c Hc).
Qed.

Lemma isControl_false (c : Z) : isControl c = false -> ~ c < 32 /\ c <> 127.
Proof. unfold isControl. rewrite orb_false_iff, Z.ltb_ge, Z.eqb_neq. lia. Qed.

Lemma validRaw_printable (s : str) :
  (0 <? len s) && negb (hasControlCharacters s) = true -> printable s.
Proof.
  rewrite andb_true_iff, negb_true_iff, Z.ltb_lt. intros [Hlen Hcontrol].
  split.
  - intros ->. unfold len in Hlen. simpl in Hlen. lia.
  - intros c Hc. apply isControl_false.
    now apply (hasControlCharacters_sound s).
Qed.

Lemma removeCarriageReturns_id (s : str) :
  hasControlCharacters s = false -> removeCarriageReturns s = s.
Proof.
  intros H. pose proof (hasControlCharacters_sound s H) as Hall.
  clear H. unfold removeCarriageReturns.
  induction s as [|c s IH]; [reflexivity|]. simpl.
  destruct (c =? 13) eqn:Hc.
  - apply Z.eqb_eq in Hc. specialize (Hall c (or_introl eq_refl)).
    apply isControl_false in Hall. lia.
  - simpl. f_equal. apply IH. intros d Hd. apply Hall. now right.
Qed.

Lemma letterKey_letter (code : str) :
  isLetterKey code = true ->
  exists c, code = lit "Key" ++ [c] /\ sliceFrom code 3 = [c]
            /\ 65 <= c <= 90.
Proof.
  intros H. apply testPrefixClass_one in H as [c [-> Hc]].
  exists c. repeat split; try reflexivity; now apply isUpperAZ_range in Hc.
Qed.

Lemma casedLetter_printable (c : Z) (uppercase : bool) :
  65 <= c <= 90 ->
  printable (if uppercase then [c] else letterToLowerCase [c]).
Proof.
  intros Hc. destruct uppercase; simpl; [printable_units|].
  destruct (isUpperAZ c); printable_units.
Qed.

Lemma forced_code (code : str) :
  has forceCodeMappedCodes code = true ->
  has nonTextKeyCodes code = false /\ isLetterKey code = false
  /\ isFunctionKey code = false
  /\ forall shift, exists character,
       mapPrintableCharacter code shift = Some (Text character).
Proof.
  intros H. apply has_In in H. simpl in H.
  repeat (destruct H as [<-|H];
          [split; [reflexivity|]; split; [reflexivity|];
           split; [reflexivity|]; intros []; eexists; reflexivity|]).
  destruct H.
Qed.

(** What [resolveTextFromGlobalEvent] returns is a string, and a
    printable one. *)
Lemma resolveText_printable (event : GlobalKeyPayload) :
  match resolveTextFromGlobalEvent event with
  | Some (Text resolved) => printable resolved
  | Some (Member _) => False
  | None => True
  end.
Proof.
  unfold resolveTextFromGlobalEvent. cbv zeta.
  destruct (ctrl event || meta event || alt event); [exact I|].
  destruct (has nonTextKeyCodes (code event)); [exact I|].
  destruct (isFunctionKey (code event)); [exact I|].
  generalize (match text event with
              | Some raw => removeCarriageReturns raw
              | None => []
              end).
  intros normalized.
  destruct (isLetterKey (code event)) eqn:Hletter.
  { apply letterKey_letter in Hletter as [c [_ [-> Hc]]].
    destruct ((0 <? len normalized) && negb (hasControlCharacters normalized))
      eqn:Hvalid; cbn [andb];
      [destruct (testPrefixClass [] isAsciiLetter 1 1 normalized);
       cbn [negb]|];
      first [ now apply casedLetter_printable
            | now apply validRaw_printable ]. }
  destruct (has forceCodeMappedCodes (code event)) eqn:Hforce.
  { destruct (forced_code _ Hforce) as [_ [_ [_ Hmapped]]].
    destruct (Hmapped (shift event)) as [character Hcharacter].
    rewrite Hcharacter.
    now apply mapPrintableCharacter_printable in Hcharacter. }
  destruct ((0 <? len normalized) && negb (hasControlCharacters normalized))
    eqn:Hvalid; cbn [negb]; [now apply validRaw_printable | exact I].
Qed.

(** C10. Whatever the event, resolveTextFromGlobalEvent returns null or
    a string that is not empty and has no code unit below 0x20 and none
    equal to 0x7F, and never a value that is no string. The same holds of
    every string the text-production step inserts, which is that string
    or else the character of the table resolver; the step hands over a
    value that is no string only when resolveTextFromGlobalEvent returned
    null and the key code is the name of a member of Object.prototype,
    and the value is then that member. *)
Theorem resolved_text_is_printable (event : GlobalKeyPayload) :
  match resolveTextFromGlobalEvent event with
  | Some (Text resolved) => printable resolved
  | Some (Member _) => False
  | None => True
  end
  /\ match producedText event with
     | Some (Text inserted) => printable inserted
     | Some (Member name) =>
         resolveTextFromGlobalEvent event = None
         /\ name = code event /\ isObjectPrototypeMember name = true
     | None => True
     end.
Proof.
  pose proof (resolveText_printable event) as Hresolved.
  split; [exact Hresolved|].
  unfold producedText.
  destruct (resolveTextFromGlobalEvent event) as [[resolved|name]|];
    [exact Hresolved | destruct Hresolved |].
  destruct (mapPrintableCharacter _ _) as [[inserted|name]|] eqn:H;
    [now apply mapPrintableCharacter_printable in H | | exact I].
  apply mapPrintableCharacter_member in H as [-> Hin]. now repeat split.
Qed.

Lemma not_clipboard_shortcut (bridge : Bridge) (event : GlobalKeyPayload)
    (st : State) :
  ctrl event = false -> meta event = false ->
  handleClipboardShortcut bridge event st = (false, st).
Proof. unfold handleClipboardShortcut. now intros -> ->. Qed.

Lemma text_production_step (bridge : Bridge) (event : GlobalKeyPayload)
    (st : State) :
  phase event = down ->
  ctrl event = false -> meta event = false -> alt event = false ->
  has nonTextKeyCodes (code event) = false ->
  handleFocuslessGlobalKey bridge event st =
  match producedText event with
  | Some (Text inserted) => Returns none (replaceSelectionWith inserted st)
  | Some (Member name) => InsertsMember name
  | None => Returns none st
  end.
Proof.
  intros Hphase Hctrl Hmeta Halt Hcode.
  unfold handleFocuslessGlobalKey.
  rewrite Hphase, not_clipboard_shortcut by assumption.
  rewrite Hctrl, Hmeta, Halt. cbn [negb andb].
  assert (Hkey : forall k, In k nonTextKeyCodes ->
                           eqb (code event) k = false)
    by (intros k; now apply has_false_eqb).
  rewrite !Hkey by (simpl; tauto). cbn [andb orb].
  unfold producedText.
  now destruct (resolveTextFromGlobalEvent event) as [[resolved|name]|].
Qed.

Lemma letter_code (code : str) :
  isLetterKey code = true ->
  has nonTextKeyCodes code = false /\ isFunctionKey code = false.
Proof.
  intros H. apply letterKey_letter in H as [c [-> _]]. now split.
Qed.

Lemma resolveText_composed (event : GlobalKeyPayload) (t : str) :
  ctrl event = false -> meta event = false -> alt event = false ->
  has nonTextKeyCodes (code event) = false ->
  isFunctionKey (code event) = false ->
  text event = Some t -> t <> [] -> hasControlCharacters t = false ->
  resolveTextFromGlobalEvent event =
  if isLetterKey (code event) then
    if testPrefixClass [] isAsciiLetter 1 1 t then
      Some (Text (if negb (Bool.eqb (shift event) (capsOn event))
                  then sliceFrom (code event) 3
                  else letterToLowerCase (sliceFrom (code event) 3)))
    else Some (Text t)
  else
    match (if has forceCodeMappedCodes (code event)
           then mapPrintableCharacter (code event) (shift event)
           else None) with
    | Some character => Some character
    | None => Some (Text t)
    end.
Proof.
  intros Hctrl Hmeta Halt Hnon Hfn Htext Hne Hcontrol.
  unfold resolveTextFromGlobalEvent, capsOn.
  rewrite Hctrl, Hmeta, Halt, Hnon, Hfn, Htext. cbn [orb].
  rewrite removeCarriageReturns_id, Hcontrol, len_pos by assumption.
  cbn [negb andb].
  now destruct (testPrefixClass [] isAsciiLetter 1 1 t).
Qed.

(** C1, as amended. For a key-down event with no ctrl, meta or alt whose
    composed text is present, not empty and free of control characters:
    on a key code that is neither a plain letter key, nor a non-text or
    function key, nor one of the force-mapped codes (digit row, US
    punctuation keys, numeric-keypad operators), the composed text is
    inserted; on a force-mapped code the character of the table resolver
    is inserted whatever the composed text; on a plain letter key the
    composed text is inserted unless it is a single ASCII letter, and in
    that case the letter of the key code is inserted, upper case exactly
    when shift and caps differ. *)
Theorem text_production_policy (bridge : Bridge) (event : GlobalKeyPayload)
    (st : State) (t : str) :
  phase event = down ->
  ctrl event = false -> meta event = false -> alt event = false ->
  text event = Some t -> t <> [] -> hasControlCharacters t = false ->
  let inserts s :=
    handleFocuslessGlobalKey bridge event st =
    Returns none (replaceSelectionWith s st) in
  (isLetterKey (code event) = false ->
   has nonTextKeyCodes (code event) = false ->
   isFunctionKey (code event) = false ->
   has forceCodeMappedCodes (code event) = false ->
   inserts t)
  /\ (has forceCodeMappedCodes (code event) = true ->
      exists character,
        mapPrintableCharacter (code event) (shift event)
        = Some (Text character)
        /\ inserts character)
  /\ (isLetterKey (code event) = true ->
      testPrefixClass [] isAsciiLetter 1 1 t = false ->
      inserts t)
  /\ (isLetterKey (code event) = true ->
      testPrefixClass [] isAsciiLetter 1 1 t = true ->
      exists c,
        code event = lit "Key" ++ [c]
        /\ inserts (if negb (Bool.eqb (shift event) (capsOn event))
                    then [c] else [c + 32])).
Proof.
  intros Hphase Hctrl Hmeta Halt Htext Hne Hcontrol inserts.
  subst inserts. cbv beta.
  repeat split.
  - intros Hletter Hnon Hfn Hforce.
    rewrite text_production_step by assumption. unfold producedText.
    rewrite (resolveText_composed event t) by assumption.
    now rewrite Hletter, Hforce.
  - intros Hforce.
    destruct (forced_code _ Hforce) as [Hnon [Hletter [Hfn Hmapped]]].
    destruct (Hmapped (shift event)) as [character Hchar].
    exists character. split; [assumption|].
    rewrite text_production_step by assumption. unfold producedText.
    rewrite (resolveText_composed event t) by assumption.
    now rewrite Hletter, Hforce, Hchar.
  - intros Hletter Hsingle.
    destruct (letter_code _ Hletter) as [Hnon Hfn].
    rewrite text_production_step by assumption. unfold producedText.
    rewrite (resolveText_composed event t) by assumption.
    now rewrite Hletter, Hsingle.
  - intros Hletter Hsingle.
    destruct (letter_code _ Hletter) as [Hnon Hfn].
    destruct (letterKey_letter _ Hletter) as [c [Hcode [Hslice Hc]]].
    exists c. split; [assumption|].
    rewrite text_production_step by assumption. unfold producedText.
    rewrite (resolveText_composed event t) by assumption.
    rewrite Hletter, Hsingle, Hslice. simpl letterToLowerCase.
    replace (isUpperAZ c) with true; [reflexivity|].
    symmetry. unfold isUpperAZ. rewrite andb_true_iff, !Z.leb_le. lia.
Qed.

Lemma text_production_policy_witness :
  handleFocuslessGlobalKey brokenBridge
    (keyDown (lit "IntlBackslash") (Some (lit "<")) false)
    (textState (lit "a") 1 1)
  = Returns none (replaceSelectionWith (lit "<") (textState (lit "a") 1 1)).
Proof.
  refine (proj1 (text_production_policy brokenBridge
            (keyDown (lit "IntlBackslash") (Some (lit "<")) false)
            (textState (lit "a") 1 1) (lit "<") _ _ _ _ _ _ _) _ _ _ _);
    try reflexivity.
  discriminate.
Defined.

(** C1, as stated, fails on the digit row: on a layout that composes "&"
    for the unshifted Digit1 key, "1" is inserted. *)
Lemma composed_text_counterexample :
  let event := keyDown (lit "Digit1") (Some (lit "&")) false in
  phase event = down
  /\ ctrl event = false /\ meta event = false /\ alt event = false
  /\ isLetterKey (code event) = false
  /\ text event = Some (lit "&")
  /\ lit "&" <> []
  /\ hasControlCharacters (lit "&") = false
  /\ producedText event = Some (Text (lit "1"))
  /\ producedText event <> option_map Text (text event)
  /\ handleFocuslessGlobalKey brokenBridge event (textState [] 0 0)
     = Returns none (textState (lit "1") 1 1).
Proof. cbv zeta. repeat split; discriminate. Qed.

Example resolve_examples :
  mapPrintableCharacter (lit "Digit1") true = Some (Text (lit "!"))
  /\ mapPrintableCharacter (lit "KeyA") false = Some (Text (lit "a"))
  /\ mapPrintableCharacter (lit "KeyA") true = Some (Text (lit "A"))
  /\ mapPrintableCharacter (lit "Escape") true = None
  /\ mapPrintableCharacter (lit "Escape") false = None.
Proof. repeat split. Qed.

(** A key code that names a member of [Object.prototype] finds it in the
    symbol tables: the resolver returns the member, and without usable
    composed text the interpreter hands it to [replaceSelectionWith]. *)
Example inherited_member_examples :
  mapPrintableCharacter (lit "constructor") true
  = Some (Member (lit "constructor"))
  /\ mapPrintableCharacter (lit "__proto__") false
     = Some (Member (lit "__proto__"))
  /\ resolveTextFromGlobalEvent (keyDown (lit "__proto__") None false)
     = None
  /\ handleFocuslessGlobalKey brokenBridge
       (keyDown (lit "__proto__") None false) (textState (lit "ab") 1 1)
     = InsertsMember (lit "__proto__")
  /\ handleFocuslessGlobalKey brokenBridge
       (keyDown (lit "__proto__") (Some (lit "x")) false)
       (textState (lit "ab") 1 1)
     = Returns none (textState (lit "axb") 2 2).
Proof. repeat split. Qed.

(** ** Text buffer and selection *)

Lemma clamp_range (v n : Z) : 0 <= n -> 0 <= clamp v 0 n <= n.
Proof. unfold clamp. lia. Qed.

Lemma clamp_id (v n : Z) : 0 <= v <= n -> clamp v 0 n = v.
Proof. unfold clamp. lia. Qed.

Lemma clamp_clamp (v n : Z) : 0 <= n -> clamp (clamp v 0 n) 0 n = clamp v 0 n.
Proof. unfold clamp. lia. Qed.

Lemma updateSelection_inRange (a b : Z) (st : State) :
  inRange (updateSelection a b st).
Proof.
  unfold inRange, updateSelection. simpl.
  pose proof (len_nonneg (value st)).
  split; now apply clamp_range.
Qed.

Lemma applyValueAndSelection_inRange (v : str) (a b : Z) (st : State) :
  inRange (applyValueAndSelection v a b st).
Proof.
  unfold inRange, applyValueAndSelection. simpl.
  pose proof (len_nonneg v).
  split; now apply clamp_range.
Qed.

Lemma replaceSelectionWith_inRange (t : str) (st : State) :
  inRange (replaceSelectionWith t st).
Proof. apply applyValueAndSelection_inRange. Qed.

Lemma insertSuggestion_inRange (s : Suggestion) (st : State) :
  inRange (insertSuggestion s st).
Proof.
  unfold insertSuggestion. cbv zeta.
  match goal with
  | |- inRange (setShowSuggestions _ ?x) =>
      change (inRange x)
  end.
  apply applyValueAndSelection_inRange.
Qed.

(** Every operation either leaves the state as it was or ends in one of
    the two setters that clamp. *)
Lemma runOp_clamps (op : EditOp) (st : State) :
  inRange (runOp op st) \/ runOp op st = st.
Proof.
  destruct op; simpl;
    try (left; first [ apply updateSelection_inRange
                     | apply replaceSelectionWith_inRange
                     | apply insertSuggestion_inRange ]).
  - unfold deleteBackward. cbv zeta.
    destruct (negb _); [left; apply replaceSelectionWith_inRange|].
    destruct (_ =? 0); [now right|].
    left. apply applyValueAndSelection_inRange.
  - unfold deleteForward. cbv zeta.
    destruct (negb _); [left; apply replaceSelectionWith_inRange|].
    destruct (_ <=? _); [now right|].
    left. apply applyValueAndSelection_inRange.
  - left. unfold moveCaret. cbv zeta.
    destruct extend; [apply updateSelection_inRange|].
    destruct (negb _); apply updateSelection_inRange.
  - left. unfold moveCaretToBoundary.
    destruct extend; apply updateSelection_inRange.
Qed.



Lemma replaceSelectionWith_inside (t : str) (st : State) :
  inRange st ->
  let lo := Z.min (selectionStart st) (selectionEnd st) in
  let hi := Z.max (selectionStart st) (selectionEnd st) in
  let nextValue :=
    firstn (Z.to_nat lo) (value st) ++ t ++ skipn (Z.to_nat hi) (value st) in
  replaceSelectionWith t st =
  setSelection (lo + len t) (lo + len t) (setValue nextValue st)
  /\ len nextValue = len (value st) - (hi - lo) + len t.
Proof.
  intros [Hstart Hend] lo hi nextValue.
  assert (Hlo : 0 <= lo <= len (value st)) by (subst lo; lia).
  assert (Hhi : 0 <= hi <= len (value st)) by (subst hi; lia).
  assert (Hlen : len nextValue = len (value st) - (hi - lo) + len t).
  { subst nextValue. rewrite !len_app, len_firstn, len_skipn by assumption.
    lia. }
  split; [|assumption].
  unfold replaceSelectionWith, applyValueAndSelection.
  cbn [start end_ toNormalizedRange].
  fold lo hi. rewrite slice_prefix, sliceFrom_suffix by assumption.
  fold nextValue. rewrite clamp_id; [reflexivity|].
  pose proof (len_nonneg t). subst lo hi. lia.
Qed.

(** C2, as amended. With a collapsed selection at p and a string s of
    exactly one UTF-16 code unit (one scalar value of the Basic
    Multilingual Plane), replaceSelection(s) followed by deleteBackward()
    gives back the state it started from: the original content with the
    caret at p. *)
Theorem insert_then_deleteBackward (st : State) (s : str) :
  inRange st ->
  selectionStart st = selectionEnd st ->
  length s = 1%nat ->
  deleteBackward (replaceSelectionWith s st) = st.
Proof.
  intros Hrange Hcollapsed Hone.
  destruct s as [|c [|d s]]; try discriminate. clear Hone.
  destruct (replaceSelectionWith_inside [c] st Hrange) as [-> Hlen].
  destruct st as [v p q sugg show active].
  unfold inRange in Hrange. simpl in *. subst q.
  destruct Hrange as [Hp _].
  rewrite Z.min_id, Z.max_id in *.
  change (len [c]) with 1 in *.
  set (a := firstn (Z.to_nat p) v) in *.
  set (b := skipn (Z.to_nat p) v) in *.
  assert (Ha : length a = Z.to_nat p)
    by (subst a; rewrite length_firstn; unfold len in Hp; lia).
  assert (Hv : v = a ++ b) by (subst a b; now rewrite firstn_skipn).
  unfold deleteBackward, setSelection, setValue. simpl.
  rewrite Z.min_id, Z.max_id, Z.eqb_refl. simpl negb. cbv iota.
  destruct (p + 1 =? 0) eqn:Hzero; [apply Z.eqb_eq in Hzero; lia|].
  unfold applyValueAndSelection, setSelection, setValue. simpl.
  replace (p + 1 - 1) with p by lia.
  rewrite slice_prefix, sliceFrom_suffix by lia.
  replace (Z.to_nat (p + 1)) with (S (length a)) by lia.
  rewrite <- Ha, firstn_app_exact, skipn_app_cons, <- Hv.
  now rewrite clamp_id by lia.
Qed.

Lemma insert_then_deleteBackward_witness :
  deleteBackward (replaceSelectionWith (lit "x") (textState (lit "ab") 1 1))
  = textState (lit "ab") 1 1.
Proof.
  apply insert_then_deleteBackward.
  - unfold inRange, len. simpl. lia.
  - reflexivity.
  - reflexivity.
Defined.

(** C2, as stated, fails for a scalar value outside the Basic
    Multilingual Plane: U+1F600 is the surrogate pair D83D DE00, the caret
    advances by two code units and deleteBackward removes one. *)
Lemma scalar_round_trip_counterexample :
  let st := textState (lit "ab") 1 1 in
  let s := [55357; 56832] in
  inRange st
  /\ selectionStart st = selectionEnd st
  /\ isScalarValue s = true
  /\ value (deleteBackward (replaceSelectionWith s st))
     = [97; 55357; 98]
  /\ value (deleteBackward (replaceSelectionWith s st)) <> value st
  /\ selectionEnd (deleteBackward (replaceSelectionWith s st)) = 2
  /\ selectionEnd (deleteBackward (replaceSelectionWith s st))
     <> selectionEnd st.
Proof.
  cbv zeta. unfold inRange, len. simpl.
  repeat split; try reflexivity; try lia; discriminate.
Qed.

(** C4. From a state whose offsets are in range: with a non-empty
    selection, moveCaret(delta, false) leaves both offsets at the minimum
    edge of the selection for a negative delta and at its maximum edge
    for a positive one (and for delta 0), without moving further; with an
    empty selection it leaves both offsets at selectionEnd + delta,
    brought back into [0, length(content)]; and moveCaret(delta, true)
    leaves selectionEnd at selectionEnd + delta, brought back into
    [0, length(content)], and selectionStart where it was. The content
    and the suggestion session are never touched. *)
Theorem moveCaret_single_step (st : State) (delta : Z) :
  inRange st ->
  let lo := Z.min (selectionStart st) (selectionEnd st) in
  let hi := Z.max (selectionStart st) (selectionEnd st) in
  let moved := Z.max 0 (Z.min (len (value st)) (selectionEnd st + delta)) in
  let offsets s := (selectionStart s, selectionEnd s) in
  (selectionStart st <> selectionEnd st ->
     (delta < 0 -> offsets (moveCaret delta false st) = (lo, lo))
     /\ (0 <= delta -> offsets (moveCaret delta false st) = (hi, hi)))
  /\ (selectionStart st = selectionEnd st ->
        offsets (moveCaret delta false st) = (moved, moved))
  /\ offsets (moveCaret delta true st) = (selectionStart st, moved)
  /\ (forall extend,
        value (moveCaret delta extend st) = value st
        /\ suggestions (moveCaret delta extend st) = suggestions st
        /\ showSuggestions (moveCaret delta extend st) = showSuggestions st
        /\ activeIndex (moveCaret delta extend st) = activeIndex st).
Proof.
  intros [Hstart Hend] lo hi moved offsets.
  pose proof (len_nonneg (value st)) as Hlen.
  subst offsets. cbv beta.
  split; [intros Hne; split; intros Hdelta | split; [|split]].
  - unfold moveCaret. cbv zeta.
    destruct (selectionStart st =? selectionEnd st) eqn:Heq;
      [apply Z.eqb_eq in Heq; contradiction|]. cbn [negb].
    destruct (delta <? 0) eqn:Hneg; [|apply Z.ltb_ge in Hneg; lia].
    unfold updateSelection, clamp.
    cbn [start end_ toNormalizedRange setSelection selectionStart
         selectionEnd].
    f_equal; subst lo; lia.
  - unfold moveCaret. cbv zeta.
    destruct (selectionStart st =? selectionEnd st) eqn:Heq;
      [apply Z.eqb_eq in Heq; contradiction|]. cbn [negb].
    destruct (delta <? 0) eqn:Hneg; [apply Z.ltb_lt in Hneg; lia|].
    unfold updateSelection, clamp.
    cbn [start end_ toNormalizedRange setSelection selectionStart
         selectionEnd].
    f_equal; subst hi; lia.
  - intros Heq. unfold moveCaret. cbv zeta.
    rewrite (proj2 (Z.eqb_eq _ _) Heq). cbn [negb].
    unfold updateSelection, clamp.
    cbn [start end_ toNormalizedRange setSelection selectionStart
         selectionEnd].
    f_equal; subst moved; lia.
  - unfold moveCaret, updateSelection, clamp.
    cbn [setSelection selectionStart selectionEnd].
    f_equal; subst moved; lia.
  - intros extend. unfold moveCaret. cbv zeta.
    destruct extend; [now repeat split|].
    destruct (negb _); now repeat split.
Qed.

Lemma moveCaret_single_step_witness :
  (selectionStart (moveCaret (-1) false (textState (lit "hello") 4 1)),
   selectionEnd (moveCaret (-1) false (textState (lit "hello") 4 1)))
  = (1, 1)
  /\ (selectionStart (moveCaret 1 false (textState (lit "hello") 4 1)),
      selectionEnd (moveCaret 1 false (textState (lit "hello") 4 1)))
     = (4, 4)
  /\ (selectionStart (moveCaret 1 true (textState (lit "hello") 4 5)),
      selectionEnd (moveCaret 1 true (textState (lit "hello") 4 5)))
     = (4, 5).
Proof.
  split; [|split].
  - refine (proj1 (proj1 (moveCaret_single_step
                            (textState (lit "hello") 4 1) (-1) _) _) _).
    + unfold inRange, len. simpl. lia.
    + discriminate.
    + reflexivity.
  - refine (proj2 (proj1 (moveCaret_single_step
                            (textState (lit "hello") 4 1) 1 _) _) _).
    + unfold inRange, len. simpl. lia.
    + discriminate.
    + discriminate.
  - refine (proj1 (proj2 (proj2 (moveCaret_single_step
                                   (textState (lit "hello") 4 5) 1 _)))).
    unfold inRange, len. simpl. lia.
Defined.

(** C9. No handler reads maxLength: every input is handled in the same
    way whatever the limit, replaceSelection inserts the whole text, so
    that the content grows by the length of the text less the length of
    the selection it replaces without regard to the limit, and maxLength
    enters only the remaining-characters counter of the rendering. *)
Theorem maxLength_not_enforced (props : ChatInputProps) (limit : Z) :
  (forall input st,
     dispatch (withMaxLength limit props) input st = dispatch props input st)
  /\ (forall bridge event st,
        handleGlobalKey (withMaxLength limit props) bridge event st
        = handleGlobalKey props bridge event st)
  /\ (forall insertText st,
        inRange st ->
        let lo := Z.min (selectionStart st) (selectionEnd st) in
        let hi := Z.max (selectionStart st) (selectionEnd st) in
        value (replaceSelectionWith insertText st)
        = firstn (Z.to_nat lo) (value st) ++ insertText
          ++ skipn (Z.to_nat hi) (value st)
        /\ len (value (replaceSelectionWith insertText st))
           = len (value st) - (hi - lo) + len insertText)
  /\ (forall st,
        remainingChars (withMaxLength limit props) st
        = limit - len (trim (value st))).
Proof.
  split; [reflexivity|]. split; [reflexivity|]. split; [|reflexivity].
  intros insertText st Hrange lo hi.
  destruct (replaceSelectionWith_inside insertText st Hrange) as [-> Hlen].
  split; [reflexivity | exact Hlen].
Qed.

Lemma maxLength_not_enforced_witness :
  len (value (replaceSelectionWith (lit "much too long")
                (textState (lit "ab") 1 1)))
  = len (lit "ab") - (1 - 1) + len (lit "much too long").
Proof.
  refine (proj2 (proj1 (proj2 (proj2 (maxLength_not_enforced
                                        (focuslessProps 3) 3)))
                   (lit "much too long") (textState (lit "ab") 1 1) _)).
  unfold inRange, len. simpl. lia.
Defined.

(** Typing past the limit: with maxLength 3, the fourth letter is
    inserted like the others and the counter goes negative. *)
Example typing_past_maxLength :
  let props := focuslessProps 3 in
  let type c st :=
    match st with
    | Some st =>
        nextState
          (handleGlobalKey props brokenBridge (keyDown c None false) st)
    | None => None
    end in
  let final :=
    type (lit "KeyD") (type (lit "KeyC") (type (lit "KeyB")
      (type (lit "KeyA") (Some (initialState []))))) in
  option_map value final = Some (lit "abcd")
  /\ option_map (remainingChars props) final = Some (-1)
  /\ option_map (isOverLimit props) final = Some true.
Proof. repeat split. Qed.

(** ** Key event interpreter *)

Lemma selectedText_not_empty (st : State) :
  inRange st -> selectionStart st <> selectionEnd st ->
  isEmpty (slice (value st)
             (Z.min (selectionStart st) (selectionEnd st))
             (Z.max (selectionStart st) (selectionEnd st))) = false.
Proof.
  intros [Hstart Hend] Hne.
  rewrite slice_inside by lia.
  match goal with |- isEmpty ?s = false => assert (Hlen : 0 < len s) end.
  { unfold len in *. rewrite length_firstn, length_skipn. lia. }
  destruct (firstn _ _); [unfold len in Hlen; simpl in Hlen; lia|reflexivity].
Qed.

(** C6. In focusless mode, a key-down event with ctrl or meta held and
    alt not held whose code is KeyA, KeyC, KeyX or KeyV is consumed with
    outcome none whatever the clipboard bridge replies; copy leaves the
    whole state as it was (in particular with an empty selection); cut
    removes a non-empty selection, leaving the caret at its minimum edge,
    whether the write succeeds or fails; and paste leaves the whole state
    as it was when the read fails or returns the empty string. *)
Theorem clipboard_shortcuts_consumed (props : ChatInputProps)
    (bridge : Bridge) (event : GlobalKeyPayload) (st : State) :
  mode props = focusless ->
  phase event = down ->
  ctrl event || meta event = true ->
  alt event = false ->
  let lo := Z.min (selectionStart st) (selectionEnd st) in
  let hi := Z.max (selectionStart st) (selectionEnd st) in
  let handled := handleGlobalKey props bridge event st in
  (code event = lit "KeyA" \/ code event = lit "KeyC"
   \/ code event = lit "KeyX" \/ code event = lit "KeyV" ->
   exists st', handled = Returns none st')
  /\ (code event = lit "KeyC" -> handled = Returns none st)
  /\ (code event = lit "KeyX" ->
      inRange st -> selectionStart st <> selectionEnd st ->
      handled = Returns none (replaceSelectionWith [] st)
      /\ replaceSelectionWith [] st =
         setSelection lo lo
           (setValue (firstn (Z.to_nat lo) (value st)
                      ++ skipn (Z.to_nat hi) (value st)) st))
  /\ (code event = lit "KeyV" ->
      read_clipboard_text bridge = None
      \/ read_clipboard_text bridge = Some [] ->
      handled = Returns none st).
Proof.
  intros Hmode Hphase Hmod Halt lo hi handled.
  subst handled. unfold handleGlobalKey, handleFocuslessGlobalKey.
  rewrite Hmode, Hphase. unfold handleClipboardShortcut.
  rewrite Hphase, Hmod, Halt. cbn [negb orb]. cbv zeta.
  split; [|split; [|split]].
  - intros [Hcode|[Hcode|[Hcode|Hcode]]]; rewrite Hcode; cbn [eqb lit].
    + eexists; reflexivity.
    + simpl. destruct (isEmpty _); [|destruct (write_clipboard_text _ _)];
        eexists; reflexivity.
    + simpl. destruct (isEmpty _); [|destruct (write_clipboard_text _ _)];
        eexists; reflexivity.
    + simpl. destruct (isEmpty _); eexists; reflexivity.
  - intros ->. simpl.
    destruct (isEmpty _); [|destruct (write_clipboard_text _ _)];
      reflexivity.
  - intros -> Hrange Hne. simpl.
    cbn [start end_ toNormalizedRange].
    rewrite selectedText_not_empty by assumption.
    split; [now destruct (write_clipboard_text _ _)|].
    destruct (replaceSelectionWith_inside [] st Hrange) as [-> _].
    fold lo hi. change (len []) with 0. now rewrite Z.add_0_r.
  - intros -> Hread. simpl.
    now destruct Hread as [-> | ->].
Qed.

Lemma clipboard_shortcuts_consumed_witness :
  handleGlobalKey (focuslessProps 200) brokenBridge (shortcut (lit "KeyX"))
    (textState (lit "hello") 4 1)
  = Returns none (replaceSelectionWith [] (textState (lit "hello") 4 1))
  /\ replaceSelectionWith [] (textState (lit "hello") 4 1)
     = textState (lit "ho") 1 1.
Proof.
  refine (proj1 (proj2 (proj2 (clipboard_shortcuts_consumed
            (focuslessProps 200) brokenBridge (shortcut (lit "KeyX"))
            (textState (lit "hello") 4 1) _ _ _ _))) _ _ _);
    try reflexivity.
  - unfold inRange, len. simpl. lia.
  - discriminate.
Defined.

(** C7. In focusless mode, a key-down event with no ctrl, meta or alt and
    code Enter or NumpadEnter is reported as submit, and one with code
    Escape as cancel; in both cases the content, both selection offsets
    and the suggestion session are left as they were. *)
Theorem enter_and_escape_leave_state (props : ChatInputProps)
    (bridge : Bridge) (event : GlobalKeyPayload) (st : State) :
  mode props = focusless ->
  phase event = down ->
  ctrl event = false -> meta event = false -> alt event = false ->
  (code event = lit "Enter" \/ code event = lit "NumpadEnter" ->
   handleGlobalKey props bridge event st = Returns submit st)
  /\ (code event = lit "Escape" ->
      handleGlobalKey props bridge event st = Returns cancel st).
Proof.
  intros Hmode Hphase Hctrl Hmeta Halt.
  unfold handleGlobalKey, handleFocuslessGlobalKey.
  rewrite Hmode, Hphase, not_clipboard_shortcut by assumption.
  rewrite Hctrl, Hmeta, Halt. cbn [negb andb].
  split; [intros [-> | ->] | intros ->]; reflexivity.
Qed.

Lemma enter_and_escape_leave_state_witness :
  handleGlobalKey (focuslessProps 200) brokenBridge
    (keyDown (lit "Enter") (Some [13]) false) (textState (lit "Hi 1") 4 4)
  = Returns submit (textState (lit "Hi 1") 4 4).
Proof.
  refine (proj1 (enter_and_escape_leave_state (focuslessProps 200)
            brokenBridge (keyDown (lit "Enter") (Some [13]) false)
            (textState (lit "Hi 1") 4 4) _ _ _ _ _) _);
    try reflexivity.
  now left.
Defined.

Lemma handleClipboardShortcut_inRange (bridge : Bridge)
    (event : GlobalKeyPayload) (st : State) :
  inRange st -> inRange (snd (handleClipboardShortcut bridge event st)).
Proof.
  intros Hrange. unfold handleClipboardShortcut. cbv zeta.
  repeat match goal with
         | |- context [if ?c then _ else _] => destruct c
         end;
    first [ exact Hrange | apply updateSelection_inRange
          | apply replaceSelectionWith_inRange ].
Qed.

Lemma handleFocuslessGlobalKey_inRange (bridge : Bridge)
    (event : GlobalKeyPayload) (st : State) (action : ChatInputKeyAction)
    (st' : State) :
  inRange st ->
  handleFocuslessGlobalKey bridge event st = Returns action st' ->
  inRange st'.
Proof.
  intros Hrange. unfold handleFocuslessGlobalKey.
  destruct (phase event); [|intros [= _ <-]; exact Hrange].
  pose proof (handleClipboardShortcut_inRange bridge event st Hrange) as Hclip.
  destruct (handleClipboardShortcut bridge event st) as [handled st1].
  simpl in Hclip.
  destruct handled; [intros [= _ <-]; exact Hclip|].
  destruct (negb (ctrl event) && negb (meta event) && negb (alt event));
    [|intros [= _ <-]; exact Hrange].
  cbv zeta.
  destruct (eqb (code event) (lit "Escape"));
    [intros [= _ <-]; exact Hrange|].
  destruct (eqb (code event) (lit "ArrowDown") && suggestionsOpen st);
    [intros [= _ <-]; exact Hrange|].
  destruct (eqb (code event) (lit "ArrowUp") && suggestionsOpen st);
    [intros [= _ <-]; exact Hrange|].
  destruct (eqb (code event) (lit "Tab") && suggestionsOpen st).
  { unfold insertActiveSuggestion. destruct (suggestionAt st); [|discriminate].
    intros [= _ <-]. apply insertSuggestion_inRange. }
  destruct (eqb (code event) (lit "Enter")
            || eqb (code event) (lit "NumpadEnter"));
    [intros [= _ <-]; exact Hrange|].
  destruct (eqb (code event) (lit "Backspace")).
  { intros [= _ <-].
    destruct (runOp_clamps DeleteBackward st) as [H|H]; simpl in H;
      [exact H | now rewrite H]. }
  destruct (eqb (code event) (lit "Delete")).
  { intros [= _ <-].
    destruct (runOp_clamps DeleteForward st) as [H|H]; simpl in H;
      [exact H | now rewrite H]. }
  repeat match goal with
         | |- context [if eqb (code event) ?k then _ else _] =>
             destruct (eqb (code event) k);
             [intros [= _ <-];
              match goal with
              | |- inRange (moveCaret ?d ?e st) =>
                  destruct (runOp_clamps (MoveCaret d e) st) as [H|H]
              | |- inRange (moveCaretToBoundary ?b ?e st) =>
                  destruct (runOp_clamps (MoveToBoundary b e) st) as [H|H]
              end; simpl in H; [exact H | now rewrite H]|]
         end.
  destruct (resolveTextFromGlobalEvent event) as [[resolved|name]|];
    [intros [= _ <-]; apply replaceSelectionWith_inRange | discriminate |].
  destruct (mapPrintableCharacter _ _) as [[printable|name]|];
    [intros [= _ <-]; apply replaceSelectionWith_inRange | discriminate
    | intros [= _ <-]; exact Hrange].
Qed.

Example end_to_end :
  let props := focuslessProps 200 in
  let feed event st := handleGlobalKey props brokenBridge event st in
  let st1 := replaceSelectionWith (lit "H") (initialState []) in
  let st2 := replaceSelectionWith (lit "i") st1 in
  let st3 := replaceSelectionWith (lit " ") st2 in
  let st4 := replaceSelectionWith (lit "1") st3 in
  feed (keyDown (lit "KeyH") None true) (initialState []) = Returns none st1
  /\ feed (keyDown (lit "KeyI") None false) st1 = Returns none st2
  /\ feed (keyDown (lit "Space") None false) st2 = Returns none st3
  /\ feed (keyDown (lit "Digit1") None false) st3 = Returns none st4
  /\ st4 = textState (lit "Hi 1") 4 4
  /\ feed (keyDown (lit "Enter") None false) st4 = Returns submit st4.
Proof. repeat split. Qed.

(** ** Suggestion session *)

Lemma sameSession_ok (a b : State) :
  sameSession a b -> sessionOk a -> sessionOk b.
Proof. unfold sessionOk. intros [-> [-> ->]]. auto. Qed.

Lemma sameSession_refl (st : State) : sameSession st st.
Proof. now repeat split. Qed.

Lemma updateSelection_session (a b : Z) (st : State) :
  sameSession st (updateSelection a b st).
Proof. now repeat split. Qed.

Lemma applyValueAndSelection_session (v : str) (a b : Z) (st : State) :
  sameSession st (applyValueAndSelection v a b st).
Proof. now repeat split. Qed.

Lemma replaceSelectionWith_session (t : str) (st : State) :
  sameSession st (replaceSelectionWith t st).
Proof. apply applyValueAndSelection_session. Qed.

Lemma moveCaret_session (delta : Z) (extend : bool) (st : State) :
  sameSession st (moveCaret delta extend st).
Proof.
  unfold moveCaret. destruct extend; [apply updateSelection_session|].
  cbv zeta. destruct (negb _); apply updateSelection_session.
Qed.

Lemma moveCaretToBoundary_session (toEnd extend : bool) (st : State) :
  sameSession st (moveCaretToBoundary toEnd extend st).
Proof.
  unfold moveCaretToBoundary. destruct extend; apply updateSelection_session.
Qed.

Lemma deleteBackward_session (st : State) :
  sameSession st (deleteBackward st).
Proof.
  unfold deleteBackward. cbv zeta.
  destruct (negb _); [apply replaceSelectionWith_session|].
  destruct (_ =? 0);
    [apply sameSession_refl | apply applyValueAndSelection_session].
Qed.

Lemma deleteForward_session (st : State) :
  sameSession st (deleteForward st).
Proof.
  unfold deleteForward. cbv zeta.
  destruct (negb _); [apply replaceSelectionWith_session|].
  destruct (_ <=? _);
    [apply sameSession_refl | apply applyValueAndSelection_session].
Qed.

Lemma handleClipboardShortcut_session (bridge : Bridge)
    (event : GlobalKeyPayload) (st : State) :
  sameSession st (snd (handleClipboardShortcut bridge event st)).
Proof.
  unfold handleClipboardShortcut. cbv zeta.
  repeat match goal with
         | |- context [if ?c then _ else _] => destruct c
         end;
    first [ apply sameSession_refl | apply updateSelection_session
          | apply replaceSelectionWith_session ].
Qed.

Lemma insertSuggestion_closes (s : Suggestion) (st : State) :
  showSuggestions (insertSuggestion s st) = false.
Proof. reflexivity. Qed.

Lemma closed_ok (st : State) : showSuggestions st = false -> sessionOk st.
Proof. unfold sessionOk. congruence. Qed.

Lemma suggestionsOpen_inv (st : State) :
  suggestionsOpen st = true ->
  showSuggestions st = true /\ 0 < Z.of_nat (length (suggestions st)).
Proof.
  unfold suggestionsOpen. rewrite andb_true_iff, Z.ltb_lt. tauto.
Qed.

Lemma nextIndex_wraps (st : State) :
  suggestionsOpen st = true -> sessionOk st ->
  let n := Z.of_nat (length (suggestions st)) in
  nextIndex st (activeIndex st) = (activeIndex st + 1) mod n
  /\ 0 <= nextIndex st (activeIndex st) < n.
Proof.
  intros Hopen Hok n. apply suggestionsOpen_inv in Hopen as [Hshow Hn].
  specialize (Hok Hshow). fold n in Hok, Hn. unfold nextIndex. fold n.
  rewrite Z.rem_mod_nonneg by lia.
  split; [reflexivity | apply Z.mod_pos_bound; lia].
Qed.

Lemma previousIndex_wraps (st : State) :
  suggestionsOpen st = true -> sessionOk st ->
  let n := Z.of_nat (length (suggestions st)) in
  previousIndex st (activeIndex st) = (activeIndex st - 1) mod n
  /\ 0 <= previousIndex st (activeIndex st) < n.
Proof.
  intros Hopen Hok n. apply suggestionsOpen_inv in Hopen as [Hshow Hn].
  specialize (Hok Hshow). fold n in Hok, Hn. unfold previousIndex. fold n.
  destruct (activeIndex st =? 0) eqn:Hzero.
  - apply Z.eqb_eq in Hzero. rewrite Hzero. split; [|lia].
    replace (0 - 1) with (n - 1 + (-1) * n) by lia.
    rewrite Z.mod_add by lia. now rewrite Z.mod_small by lia.
  - apply Z.eqb_neq in Hzero. split; [|lia].
    now rewrite Z.mod_small by lia.
Qed.

Lemma cycle_ok (st : State) (update : Z -> Z) :
  showSuggestions st = true ->
  0 <= update (activeIndex st) < Z.of_nat (length (suggestions st)) ->
  sessionOk (setActiveIndex update st).
Proof. unfold sessionOk. simpl. auto. Qed.

Lemma insertActiveSuggestion_ok (st st' : State) :
  insertActiveSuggestion st = Some st' -> sessionOk st'.
Proof.
  unfold insertActiveSuggestion. destruct (suggestionAt st); [|discriminate].
  intros [= <-]. now apply closed_ok.
Qed.

Ltac session_ok Hok :=
  first
    [ exact Hok
    | apply closed_ok; reflexivity
    | apply (sameSession_ok _ _ (replaceSelectionWith_session _ _) Hok)
    | apply (sameSession_ok _ _ (deleteBackward_session _) Hok)
    | apply (sameSession_ok _ _ (deleteForward_session _) Hok)
    | apply (sameSession_ok _ _ (moveCaret_session _ _ _) Hok)
    | apply (sameSession_ok _ _ (moveCaretToBoundary_session _ _ _) Hok)
    | apply (sameSession_ok _ _ (updateSelection_session _ _ _) Hok) ].

Lemma handleFocuslessGlobalKey_ok (bridge : Bridge)
    (event : GlobalKeyPayload) (st : State) (action : ChatInputKeyAction)
    (st' : State) :
  sessionOk st ->
  handleFocuslessGlobalKey bridge event st = Returns action st' ->
  sessionOk st'.
Proof.
  intros Hok. unfold handleFocuslessGlobalKey.
  destruct (phase event); [|intros [= _ <-]; exact Hok].
  pose proof (handleClipboardShortcut_session bridge event st) as Hclip.
  destruct (handleClipboardShortcut bridge event st) as [handled st1].
  simpl in Hclip.
  destruct handled;
    [intros [= _ <-]; exact (sameSession_ok _ _ Hclip Hok)|].
  destruct (negb (ctrl event) && negb (meta event) && negb (alt event));
    [|intros [= _ <-]; exact Hok].
  cbv zeta.
  destruct (eqb (code event) (lit "Escape")); [intros [= _ <-]; exact Hok|].
  destruct (eqb (code event) (lit "ArrowDown") && suggestionsOpen st)
    eqn:Hdown.
  { apply andb_prop in Hdown as [_ Hopen]. intros [= _ <-].
    apply cycle_ok; [now apply suggestionsOpen_inv in Hopen|].
    now apply nextIndex_wraps. }
  destruct (eqb (code event) (lit "ArrowUp") && suggestionsOpen st) eqn:Hup.
  { apply andb_prop in Hup as [_ Hopen]. intros [= _ <-].
    apply cycle_ok; [now apply suggestionsOpen_inv in Hopen|].
    now apply previousIndex_wraps. }
  destruct (eqb (code event) (lit "Tab") && suggestionsOpen st).
  { destruct (insertActiveSuggestion st) as [inserted|] eqn:Hins;
      [|discriminate].
    intros [= _ <-]. now apply insertActiveSuggestion_ok in Hins. }
  repeat match goal with
         | |- context [if ?c then _ else _] =>
             destruct c; [intros [= _ <-]; session_ok Hok|]
         end.
  destruct (resolveTextFromGlobalEvent event) as [[resolved|name]|];
    [intros [= _ <-]; session_ok Hok | discriminate |].
  destruct (mapPrintableCharacter _ _) as [[printable|name]|];
    [intros [= _ <-]; session_ok Hok | discriminate
    | intros [= _ <-]; session_ok Hok].
Qed.

Section SessionInvariant.

(** What the session is computed from is left open: the lower-casing of
    the engine and the emoji table. *)
Variable toLowerCase : str -> str.
Variable findEmojiSuggestions : str -> list EmojiSuggestion.

Lemma recompute_ok (names : list str) (st : State) :
  sessionOk (recomputeSuggestions toLowerCase findEmojiSuggestions names st).
Proof.
  unfold sessionOk, recomputeSuggestions. cbv zeta. simpl.
  rewrite Z.ltb_lt. lia.
Qed.

Lemma clampSelectionEffect_session (st : State) :
  sameSession st (clampSelectionEffect st).
Proof. now repeat split. Qed.

Lemma effects_ok (changed : bool) (names : list str) (prev st : State) :
  sessionOk st ->
  sessionOk
    (runEffects toLowerCase findEmojiSuggestions changed names prev st).
Proof.
  intros Hok. unfold runEffects. cbv zeta.
  destruct (_ || _ || _); [apply recompute_ok|].
  exact (sameSession_ok _ _ (clampSelectionEffect_session st) Hok).
Qed.

Lemma dispatch_ok (props : ChatInputProps) (input : Input) (st st' : State) :
  sessionOk st -> dispatch props input st = Some st' -> sessionOk st'.
Proof.
  intros Hok. unfold dispatch.
  destruct input as [bridge event| | |index|v a b|a b|key].
  - assert (H : forall r, handleGlobalKey props bridge event st = r ->
                          nextState r = Some st' -> sessionOk st').
    { intros [action st1| |name] Hr; try discriminate. intros [= <-].
      unfold handleGlobalKey in Hr. destruct (mode props).
      - injection Hr as _ <-. exact Hok.
      - now apply handleFocuslessGlobalKey_ok in Hr. }
    destruct (mode props); now apply H.
  - destruct (mode props); intros [= <-]; session_ok Hok.
  - destruct (mode props); [discriminate|]. intros [= <-]. session_ok Hok.
  - assert (H : (if suggestionsOpen st
                 then option_map (fun s => insertSuggestion s st)
                        (nth_error (suggestions st) index)
                 else None) = Some st' -> sessionOk st').
    { destruct (suggestionsOpen st); [|discriminate].
      destruct (nth_error _ _); [|discriminate].
      intros [= <-]. now apply closed_ok. }
    destruct (mode props); exact H.
  - destruct (mode props); [|discriminate]. intros [= <-].
    exact (sameSession_ok _ _ (updateSelection_session a b st) Hok).
  - destruct (mode props); [|discriminate]. intros [= <-]. session_ok Hok.
  - destruct (mode props); [|discriminate].
    destruct (eqb key (lit "ArrowDown") && suggestionsOpen st) eqn:Hdown.
    { apply andb_prop in Hdown as [_ Hopen]. intros [= <-].
      apply cycle_ok; [now apply suggestionsOpen_inv in Hopen|].
      now apply nextIndex_wraps. }
    destruct (eqb key (lit "ArrowUp") && suggestionsOpen st) eqn:Hup.
    { apply andb_prop in Hup as [_ Hopen]. intros [= <-].
      apply cycle_ok; [now apply suggestionsOpen_inv in Hopen|].
      now apply previousIndex_wraps. }
    destruct (eqb key (lit "Tab") && suggestionsOpen st).
    { apply insertActiveSuggestion_ok. }
    intros [= <-]. exact Hok.
Qed.

Lemma reachable_ok (props : ChatInputProps) (st : State) :
  reachable toLowerCase findEmojiSuggestions props st -> sessionOk st.
Proof.
  induction 1 as [props v|props st input st' _ IH Hstep
                 |props st props' v changed _ IH].
  - apply recompute_ok.
  - apply effects_ok. now apply (dispatch_ok props input st).
  - apply effects_ok. exact IH.
Qed.

Lemma reachable_inRange (props : ChatInputProps) (st : State) :
  reachable toLowerCase findEmojiSuggestions props st -> inRange st.
Proof.
  assert (Heffects : forall changed names prev st0,
            inRange (runEffects toLowerCase findEmojiSuggestions
                       changed names prev st0)).
  { intros changed names prev st0. unfold runEffects. cbv zeta.
    assert (Hclamped : inRange (clampSelectionEffect st0)).
    { unfold inRange, clampSelectionEffect. simpl.
      pose proof (len_nonneg (value st0)). split; now apply clamp_range. }
    now destruct (_ || _ || _). }
  destruct 1; apply Heffects.
Qed.

(** A state the component can be in always lets Tab insert: the active
    index designates a candidate, so the handler does not throw. *)
Lemma reachable_tab_inserts (props : ChatInputProps) (st : State) :
  reachable toLowerCase findEmojiSuggestions props st ->
  suggestionsOpen st = true ->
  exists suggestion,
    suggestionAt st = Some suggestion
    /\ insertActiveSuggestion st = Some (insertSuggestion suggestion st).
Proof.
  intros Hreach Hopen. apply reachable_ok in Hreach.
  apply suggestionsOpen_inv in Hopen as [Hshow _].
  specialize (Hreach Hshow).
  unfold insertActiveSuggestion, suggestionAt.
  destruct (activeIndex st <? 0) eqn:Hneg; [apply Z.ltb_lt in Hneg; lia|].
  destruct (nth_error (suggestions st) (Z.to_nat (activeIndex st)))
    as [suggestion|] eqn:Hnth.
  - now exists suggestion.
  - apply nth_error_None in Hnth. lia.
Qed.

(** C8. In every state the component can reach, a visible suggestion
    session has its activeIndex in [0, length(candidates)); recomputing
    the candidates sets activeIndex to 0, from any state, and shows the
    session exactly when there is a candidate; on a visible session with n
    candidates, n at least 1, and activeIndex i in range, ArrowDown
    (next) returns none and leaves the state with activeIndex
    (i + 1) mod n, ArrowUp (previous) leaves it with activeIndex
    (i - 1) mod n, and neither changes the content, the selection
    offsets, the candidates or the visibility; and with no candidates
    these keys leave the state as it was. *)
Theorem suggestion_session_cycles :
  (forall props st,
     reachable toLowerCase findEmojiSuggestions props st ->
     showSuggestions st = true ->
     0 <= activeIndex st < Z.of_nat (length (suggestions st)))
  /\ (forall names st,
        let st' :=
          recomputeSuggestions toLowerCase findEmojiSuggestions names st in
        activeIndex st' = 0
        /\ showSuggestions st' = (0 <? Z.of_nat (length (suggestions st'))))
  /\ (forall bridge event st,
        phase event = down ->
        ctrl event = false -> meta event = false -> alt event = false ->
        showSuggestions st = true -> suggestions st <> [] ->
        0 <= activeIndex st < Z.of_nat (length (suggestions st)) ->
        let n := Z.of_nat (length (suggestions st)) in
        let withIndex i :=
          {| value := value st; selectionStart := selectionStart st;
             selectionEnd := selectionEnd st; suggestions := suggestions st;
             showSuggestions := true; activeIndex := i |} in
        (code event = lit "ArrowDown" ->
         handleFocuslessGlobalKey bridge event st
         = Returns none (withIndex ((activeIndex st + 1) mod n)))
        /\ (code event = lit "ArrowUp" ->
            handleFocuslessGlobalKey bridge event st
            = Returns none (withIndex ((activeIndex st - 1) mod n))))
  /\ (forall bridge event st,
        phase event = down ->
        ctrl event = false -> meta event = false -> alt event = false ->
        suggestions st = [] ->
        code event = lit "ArrowDown" \/ code event = lit "ArrowUp" ->
        handleFocuslessGlobalKey bridge event st = Returns none st).
Proof.
  split; [|split; [|split]].
  - intros props st Hreach. exact (reachable_ok props st Hreach).
  - intros names st. split; reflexivity.
  - intros bridge event st Hphase Hctrl Hmeta Halt Hshow Hsome Hindex n
      withIndex.
    assert (Hopen : suggestionsOpen st = true).
    { unfold suggestionsOpen. rewrite Hshow.
      destruct (suggestions st); [contradiction | reflexivity]. }
    assert (Hok : sessionOk st) by (intros _; exact Hindex).
    destruct (nextIndex_wraps st Hopen Hok) as [Hnext _].
    destruct (previousIndex_wraps st Hopen Hok) as [Hprev _].
    fold n in Hnext, Hprev.
    unfold handleFocuslessGlobalKey.
    rewrite Hphase, not_clipboard_shortcut by assumption.
    rewrite Hctrl, Hmeta, Halt, Hopen. cbn [negb andb]. cbv zeta.
    unfold setActiveIndex. subst withIndex. cbv beta.
    split; intros ->; cbn [eqb lit]; simpl;
      now rewrite ?Hnext, ?Hprev, Hshow.
  - intros bridge event st Hphase Hctrl Hmeta Halt Hnone Hcode.
    unfold handleFocuslessGlobalKey, suggestionsOpen.
    rewrite Hphase, not_clipboard_shortcut by assumption.
    unfold resolveTextFromGlobalEvent.
    rewrite Hctrl, Hmeta, Halt, Hnone. cbn [negb andb orb]. cbv zeta.
    destruct Hcode as [-> | ->]; destruct (shift event); simpl;
      now rewrite andb_false_r.
Qed.

End SessionInvariant.

Lemma suggestion_session_cycles_witness :
  let st i :=
    {| value := lit "@al"; selectionStart := 3; selectionEnd := 3;
       suggestions := [Mention (lit "alice"); Mention (lit "albert")];
       showSuggestions := true; activeIndex := i |} in
  handleFocuslessGlobalKey brokenBridge
    (keyDown (lit "ArrowDown") None false) (st 1)
  = Returns none (st 0)
  /\ handleFocuslessGlobalKey brokenBridge
       (keyDown (lit "ArrowUp") None false) (st 0)
     = Returns none (st 1).
Proof.
  intros st. split.
  - refine (proj1 (proj1 (proj2 (proj2 (suggestion_session_cycles
                                          letterToLowerCase (fun _ => []))))
                     brokenBridge (keyDown (lit "ArrowDown") None false)
                     (st 1) _ _ _ _ _ _ _) _);
      try reflexivity.
    + discriminate.
    + simpl. lia.
  - refine (proj2 (proj1 (proj2 (proj2 (suggestion_session_cycles
                                          letterToLowerCase (fun _ => []))))
                     brokenBridge (keyDown (lit "ArrowUp") None false)
                     (st 0) _ _ _ _ _ _ _) _);
      try reflexivity.
    + discriminate.
    + simpl. lia.
Defined.

Example suggestion_trigger :
  recomputeSuggestions letterToLowerCase (fun _ => [])
    (distinct [] [lit "alice"; lit "albert"; lit "bob"; lit "alice"])
    (textState (lit "hello @al") 9 9)
  = {| value := lit "hello @al"; selectionStart := 9; selectionEnd := 9;
       suggestions := [Mention (lit "alice"); Mention (lit "albert")];
       showSuggestions := true; activeIndex := 0 |}.
Proof. reflexivity. Qed.

(** ** Inserting a suggestion *)

Lemma isBreak_cases (c : Z) : isBreak c = true -> c = 32 \/ c = 9 \/ c = 10.
Proof. unfold isBreak. rewrite !orb_true_iff, !Z.eqb_eq. tauto. Qed.

Lemma isBreak_absent (word : str) (c : Z) :
  forallb (fun x => negb (isBreak x)) word = true ->
  isBreak c = true -> forall x, In x word -> x <> c.
Proof.
  intros Hword Hc x Hx ->. rewrite forallb_forall in Hword.
  specialize (Hword c Hx). now rewrite Hc in Hword.
Qed.

(** The start of the word [insertSuggestion] replaces: with the text
    before the selection made of [pre], empty or ending in a space, tab or
    newline, and of a [word] without any of them, it is the length of
    [pre]. *)
Lemma wordStart_after_break (pre word : str) :
  pre = [] \/ (exists pre' w, pre = pre' ++ [w] /\ isBreak w = true) ->
  forallb (fun x => negb (isBreak x)) word = true ->
  let before := pre ++ word in
  Z.max (Z.max (lastIndexOf before 32) (lastIndexOf before 9))
        (lastIndexOf before 10) + 1 = len pre.
Proof.
  intros Hpre Hword before. subst before. unfold lastIndexOf.
  assert (Hnone : forall c, isBreak c = true ->
                    lastIndexOfFrom 0 c (pre ++ word)
                    = lastIndexOfFrom 0 c pre).
  { intros c Hc. rewrite lastIndexOfFrom_app by lia.
    now rewrite (lastIndexOfFrom_absent _ c word)
      by (now apply isBreak_absent). }
  rewrite !Hnone by reflexivity.
  destruct Hpre as [-> | [pre' [w [-> Hw]]]]; [reflexivity|].
  assert (Hlast : forall c, isBreak c = true ->
                    (c = w -> lastIndexOfFrom 0 c (pre' ++ [w]) = len pre')
                    /\ lastIndexOfFrom 0 c (pre' ++ [w]) <= len pre').
  { intros c Hc. rewrite lastIndexOfFrom_app by lia. simpl.
    destruct (w =? c) eqn:Hwc.
    - pose proof (len_nonneg pre') as Hlen.
      destruct (0 <=? len pre') eqn:Hle; [|apply Z.leb_gt in Hle; lia].
      split; [reflexivity | lia].
    - simpl. apply Z.eqb_neq in Hwc. split; [congruence|].
      destruct (lastIndexOfFrom_bound 0 c pre') as [H|H];
        pose proof (len_nonneg pre'); lia. }
  rewrite len_app. change (len [w]) with 1.
  destruct (Hlast 32 eq_refl) as [H32 ?].
  destruct (Hlast 9 eq_refl) as [H9 ?].
  destruct (Hlast 10 eq_refl) as [H10 ?].
  apply isBreak_cases in Hw as [-> | [-> | ->]];
    [rewrite (H32 eq_refl) in * | rewrite (H9 eq_refl) in *
     | rewrite (H10 eq_refl) in *]; lia.
Qed.

(** On the separators it knows, [insertSuggestion] does what the
    specification describes: with the caret at [p] after [pre ++ word] as
    above, the word is replaced by the mention or the glyph followed by a
    space, the caret comes right after it, and the session is closed. *)
Lemma insertSuggestion_replaces_word (suggestion : Suggestion) (st : State)
    (pre word : str) :
  inRange st ->
  selectionStart st = selectionEnd st ->
  firstn (Z.to_nat (selectionEnd st)) (value st) = pre ++ word ->
  pre = [] \/ (exists pre' w, pre = pre' ++ [w] /\ isBreak w = true) ->
  forallb (fun x => negb (isBreak x)) word = true ->
  let replacement :=
    match suggestion with
    | Mention name => lit "@" ++ name
    | Emoji entry => emoji entry
    end in
  let caret := len pre + len replacement + 1 in
  insertSuggestion suggestion st =
  setShowSuggestions false
    (setSelection caret caret
       (setValue
          ((pre ++ replacement ++ lit " ")
           ++ skipn (Z.to_nat (selectionEnd st)) (value st)) st)).
Proof.
  intros [_ Hend] Hcollapsed Hbefore Hpre Hword replacement caret.
  unfold insertSuggestion. cbv zeta. cbn [start end_ toNormalizedRange].
  rewrite Hcollapsed, Z.min_id, Z.max_id.
  rewrite (slice_prefix (value st) (selectionEnd st)), sliceFrom_suffix,
    Hbefore by assumption.
  rewrite (wordStart_after_break pre word Hpre Hword).
  rewrite slice_prefix
    by (rewrite len_app; pose proof (len_nonneg pre);
        pose proof (len_nonneg word); lia).
  replace (firstn (Z.to_nat (len pre)) (pre ++ word)) with pre
    by (unfold len; now rewrite Nat2Z.id, firstn_app_exact).
  fold replacement. unfold applyValueAndSelection.
  assert (Hcaret : len (pre ++ replacement ++ lit " ") = caret)
    by (subst caret; rewrite !len_app; change (len (lit " ")) with 1; lia).
  rewrite Hcaret, clamp_id; [reflexivity|].
  rewrite len_app, Hcaret.
  pose proof (len_nonneg (skipn (Z.to_nat (selectionEnd st)) (value st))).
  pose proof (len_nonneg pre). pose proof (len_nonneg replacement).
  subst caret. lia.
Qed.

(** The example of the specification: Mention alice into "hello @al". *)
Example insertSuggestion_alice :
  insertSuggestion (Mention (lit "alice")) (textState (lit "hello @al") 9 9)
  = textState (lit "hello @alice ") 13 13.
Proof. reflexivity. Qed.

(** C5 at a failing input. The buffer holds "a", an ideographic space
    (U+3000) and "@al", with the caret at the end. The suggestion engine
    splits on every whitespace character, finds the current word "@al"
    and shows alice; Tab then looks for the start of the word with
    lastIndexOf of space, tab and newline only, finds none, and replaces
    the buffer from its beginning: the content becomes "@alice " instead
    of "a", the ideographic space and "@alice ". *)
Theorem insertSuggestion_after_ideographic_space :
  let typed := textState ([97; 12288] ++ lit "@al") 5 5 in
  let st :=
    recomputeSuggestions letterToLowerCase (fun _ => []) [lit "alice"] typed in
  isWhiteSpace 12288 = true
  /\ lastWord typed = lit "@al"
  /\ suggestions st = [Mention (lit "alice")]
  /\ showSuggestions st = true
  /\ handleFocuslessGlobalKey brokenBridge (keyDown (lit "Tab") None false) st
     = Returns none (insertSuggestion (Mention (lit "alice")) st)
  /\ value (insertSuggestion (Mention (lit "alice")) st) = lit "@alice "
  /\ selectionEnd (insertSuggestion (Mention (lit "alice")) st) = 7
  /\ value (insertSuggestion (Mention (lit "alice")) st)
     <> [97; 12288] ++ lit "@alice ".
Proof. cbv zeta. repeat split; discriminate. Qed.

(** ** More on the key-code resolver and on text production *)

(** Walking the string by code points hides no code unit from
    [hasControlCharacters]: it answers true exactly when some code unit
    of the string, paired in a surrogate pair or not, is below 0x20 or is
    0x7F. *)
Theorem hasControlCharacters_any_unit (s : str) :
  hasControlCharacters s = existsb isControl s.
Proof.
  enough (H : hasControlCharacters s = existsb isControl s
              /\ forall x, hasControlCharacters (x :: s)
                           = existsb isControl (x :: s))
    by apply H.
  induction s as [|y s [IHs IHy]].
  - split; [reflexivity|]. intros x. simpl. now destruct (isControl x).
  - split; [exact (IHy y)|].
    intros x. cbn [hasControlCharacters existsb].
    destruct (isControl x); [reflexivity|]. cbn [orb].
    destruct (isHighSurrogate x && isLowSurrogate y) eqn:Hpair.
    + apply andb_prop in Hpair as [_ Hlow].
      replace (isControl y) with false; [exact IHs|].
      symmetry. unfold isLowSurrogate in Hlow. unfold isControl.
      apply andb_prop in Hlow as [Hlow _]. apply Z.leb_le in Hlow.
      rewrite orb_false_iff, Z.ltb_ge, Z.eqb_neq. lia.
    + exact (IHy y).
Qed.

Ltac ascii_unit :=
  eexists; split; [reflexivity|]; lia.

Ltac ascii_cases H :=
  simpl in H;
  repeat (destruct H as [H|H]; [subst; ascii_unit|]);
  try destruct H.

(** The table resolver returns null, a string of exactly one printable
    ASCII character (0x20 to 0x7E), or a member of Object.prototype,
    which is no string. It returns a member only for a key code that is
    the name of that member, and for each of the twelve names it does
    return the member, with shift and without. *)
Theorem mapPrintableCharacter_one_ascii (code : str) (shift : bool) :
  match mapPrintableCharacter code shift with
  | Some (Text character) => exists c, character = [c] /\ 32 <= c <= 126
  | Some (Member name) =>
      name = code /\ isObjectPrototypeMember code = true
  | None => True
  end
  /\ Forall (fun name => mapPrintableCharacter name shift
                         = Some (Member name))
       objectPrototypeMembers.
Proof.
  split; [|repeat constructor; now destruct shift].
  destruct (mapPrintableCharacter code shift) as [[s|name]|] eqn:Hmapped;
    [|now apply mapPrintableCharacter_member in Hmapped | exact I].
  revert Hmapped. unfold mapPrintableCharacter, isLetterKey. cbv zeta.
  destruct (eqb code (lit "Space")); [intros [= <-]; ascii_unit|].
  destruct (testPrefixClass (lit "Key") isUpperAZ 1 1 code) eqn:Hkey.
  { apply testPrefixClass_one in Hkey as [c [-> Hc]].
    intros [= <-]. destruct shift; cbn; [|rewrite Hc];
      apply isUpperAZ_range in Hc; ascii_unit. }
  destruct (testPrefixClass (lit "Digit") isDigit 1 1 code) eqn:Hdigit.
  { apply testPrefixClass_one in Hdigit as [c [-> Hc]].
    apply isDigit_range in Hc. destruct shift.
    - intros H. apply get_In in H. ascii_cases H.
    - intros [= <-]. cbn. ascii_unit. }
  destruct (startsWith (lit "Numpad") code && (len code =? len (lit "Numpad0"))
            && testPrefixClass [] isDigit 1 1
                 (sliceFrom code (len (lit "Numpad")))) eqn:Hnumpad.
  { apply andb_prop in Hnumpad as [_ Hnum].
    apply testPrefixClass_one in Hnum as [c [Hs Hc]].
    apply isDigit_range in Hc. rewrite Hs. intros [= <-]. ascii_unit. }
  repeat match goal with
         | |- context [if eqb code ?k then _ else _] =>
             destruct (eqb code k); [intros [= <-]; ascii_unit|]
         end.
  destruct shift; simpl.
  - destruct (truthyEntry shiftedSymbolMap code) eqn:Hentry; [|discriminate].
    intros [= ->]. apply truthyEntry_In in Hentry. ascii_cases Hentry.
  - intros H. apply truthyEntry_In in H. ascii_cases H.
Qed.

Lemma functionKey_shape (code : str) :
  isFunctionKey code = true ->
  exists d rest, code = 70 :: d :: rest.
Proof.
  unfold isFunctionKey, testPrefixClass, startsWith. intros H.
  repeat (apply andb_prop in H as [H ?]).
  destruct code as [|f [|d rest]]; try discriminate.
  apply str_eqb_eq in H. injection H as ->. now exists d, rest.
Qed.

Lemma nonText_unmapped (code : str) (shift : bool) :
  has nonTextKeyCodes code = true \/ isFunctionKey code = true ->
  mapPrintableCharacter code shift = None.
Proof.
  intros [H|H].
  - apply has_In in H. simpl in H.
    repeat (destruct H as [<-|H]; [now destruct shift|]). destruct H.
  - apply functionKey_shape in H as [d [rest ->]]. now destruct shift.
Qed.

Lemma nonText_unresolved (event : GlobalKeyPayload) :
  has nonTextKeyCodes (code event) = true
  \/ isFunctionKey (code event) = true ->
  resolveTextFromGlobalEvent event = None.
Proof.
  intros H. unfold resolveTextFromGlobalEvent.
  destruct (ctrl event || meta event || alt event); [reflexivity|].
  destruct (has nonTextKeyCodes (code event)); [reflexivity|].
  destruct H as [H|H]; [discriminate | now rewrite H].
Qed.

Lemma moveCaret_value (delta : Z) (extend : bool) (st : State) :
  value (moveCaret delta extend st) = value st.
Proof.
  unfold moveCaret. destruct extend; [reflexivity|]. cbv zeta.
  now destruct (negb _).
Qed.

Lemma moveCaretToBoundary_value (toEnd extend : bool) (st : State) :
  value (moveCaretToBoundary toEnd extend st) = value st.
Proof. unfold moveCaretToBoundary. now destruct extend. Qed.

Ltac evaluate_keys :=
  repeat match goal with
         | |- context [eqb ?a ?b] =>
             let v := eval vm_compute in (eqb a b) in
             change (eqb a b) with v
         end;
  cbn [andb orb].

(** Function keys and the non-text keys never produce text, whatever
    composed text the event carries, and a key-down event for one of them
    other than Backspace, Delete and Tab leaves the content as it was. *)
Theorem non_text_keys_keep_content (bridge : Bridge)
    (event : GlobalKeyPayload) (st : State) :
  has nonTextKeyCodes (code event) = true
  \/ isFunctionKey (code event) = true ->
  producedText event = None
  /\ (code event <> lit "Backspace" -> code event <> lit "Delete" ->
      code event <> lit "Tab" ->
      exists action st',
        handleFocuslessGlobalKey bridge event st = Returns action st'
        /\ value st' = value st).
Proof.
  intros Hcode.
  pose proof (nonText_unresolved event Hcode) as Hresolved.
  pose proof (nonText_unmapped (code event) (shift event) Hcode) as Hmapped.
  split; [unfold producedText; now rewrite Hresolved, Hmapped|].
  intros Hbackspace Hdelete Htab.
  unfold handleFocuslessGlobalKey, handleClipboardShortcut.
  destruct (phase event); [|now exists none, st].
  cbv zeta. rewrite Hresolved, Hmapped.
  destruct Hcode as [H|H].
  - apply has_In in H. simpl in H.
    repeat (destruct H as [H|H];
            [try (exfalso;
                  first [ apply Htab; symmetry; exact H
                        | apply Hbackspace; symmetry; exact H
                        | apply Hdelete; symmetry; exact H ]);
             rewrite <- H in *; evaluate_keys;
             repeat match goal with
                    | |- context [if ?c then _ else _] => destruct c
                    end;
             eexists; eexists; (split; [reflexivity|]);
             first [ reflexivity | apply moveCaret_value
                   | apply moveCaretToBoundary_value ]|]).
    destruct H.
  - apply functionKey_shape in H as [d [rest H]]. rewrite H.
    evaluate_keys.
    repeat match goal with
           | |- context [if ?c then _ else _] => destruct c
           end;
      now exists none, st.
Qed.

Lemma eqb_neq (a b : str) : a <> b -> eqb a b = false.
Proof.
  intros H. destruct (eqb a b) eqn:Heq; [|reflexivity].
  apply str_eqb_eq in Heq. contradiction.
Qed.

(** The interpreter ignores what is not a plain key press: a key-up
    event, an event with alt held, and an event with ctrl or meta held
    whose code is none of KeyA, KeyC, KeyX and KeyV all report none and
    leave the whole state as it was. *)
Theorem modified_keys_are_ignored (bridge : Bridge)
    (event : GlobalKeyPayload) (st : State) :
  (phase event = up ->
   handleFocuslessGlobalKey bridge event st = Returns none st)
  /\ (alt event = true ->
      handleFocuslessGlobalKey bridge event st = Returns none st)
  /\ (ctrl event || meta event = true ->
      code event <> lit "KeyA" -> code event <> lit "KeyC" ->
      code event <> lit "KeyX" -> code event <> lit "KeyV" ->
      handleFocuslessGlobalKey bridge event st = Returns none st).
Proof.
  unfold handleFocuslessGlobalKey, handleClipboardShortcut.
  split; [|split].
  - now intros ->.
  - intros ->. destruct (phase event); [|reflexivity].
    rewrite !orb_true_r, !andb_false_r. reflexivity.
  - intros Hmod HA HC HX HV. destruct (phase event); [|reflexivity].
    rewrite Hmod. cbv zeta.
    rewrite !eqb_neq by assumption.
    apply orb_true_iff in Hmod.
    destruct (alt event); cbn [negb orb andb];
      [now rewrite !andb_false_r|].
    destruct Hmod as [-> | ->]; cbn [negb andb];
      now rewrite ?andb_false_r.
Qed.

Lemma modified_keys_are_ignored_witness :
  handleFocuslessGlobalKey brokenBridge (shortcut (lit "KeyZ"))
    (textState (lit "ab") 1 1)
  = Returns none (textState (lit "ab") 1 1).
Proof.
  refine (proj2 (proj2 (modified_keys_are_ignored brokenBridge
            (shortcut (lit "KeyZ")) (textState (lit "ab") 1 1)))
            _ _ _ _ _);
    first [reflexivity | discriminate].
Defined.

Lemma non_text_keys_keep_content_witness :
  producedText (keyDown (lit "F5") (Some (lit "x")) false) = None.
Proof.
  refine (proj1 (non_text_keys_keep_content brokenBridge
            (keyDown (lit "F5") (Some (lit "x")) false)
            (textState (lit "ab") 1 1) _)).
  right. reflexivity.
Defined.

(** The composed text once its carriage returns are removed, and whether
    the interpreter can use it. *)
Lemma resolveText_general (event : GlobalKeyPayload) :
  ctrl event = false -> meta event = false -> alt event = false ->
  has nonTextKeyCodes (code event) = false ->
  isFunctionKey (code event) = false ->
  let normalized := normalizedText event in
  resolveTextFromGlobalEvent event =
  if isLetterKey (code event) then
    if usableText event
       && negb (testPrefixClass [] isAsciiLetter 1 1 normalized)
    then Some (Text normalized)
    else Some (Text (if negb (Bool.eqb (shift event) (capsOn event))
                     then sliceFrom (code event) 3
                     else letterToLowerCase (sliceFrom (code event) 3)))
  else
    match (if has forceCodeMappedCodes (code event)
           then mapPrintableCharacter (code event) (shift event)
           else None) with
    | Some character => Some character
    | None =>
        if negb (usableText event) then None else Some (Text normalized)
    end.
Proof.
  intros Hctrl Hmeta Halt Hnon Hfn normalized.
  unfold resolveTextFromGlobalEvent, capsOn.
  now rewrite Hctrl, Hmeta, Halt, Hnon, Hfn.
Qed.

(** Without usable composed text (absent, empty once its carriage
    returns are removed, or holding a control character) an event with no
    ctrl, meta or alt falls back to the table: a key that is not a plain
    letter key inserts what the table resolver gives for its code and
    shift state, or nothing; a plain letter key inserts its letter, upper
    case exactly when shift and caps differ. *)
Theorem unusable_text_falls_back (event : GlobalKeyPayload) :
  ctrl event = false -> meta event = false -> alt event = false ->
  usableText event = false ->
  (isLetterKey (code event) = false ->
   producedText event = mapPrintableCharacter (code event) (shift event))
  /\ (isLetterKey (code event) = true ->
      exists c,
        code event = lit "Key" ++ [c]
        /\ producedText event
           = Some (Text (if negb (Bool.eqb (shift event) (capsOn event))
                         then [c] else [c + 32]))).
Proof.
  intros Hctrl Hmeta Halt Hunusable. unfold producedText. split.
  - intros Hletter.
    destruct (has nonTextKeyCodes (code event)
              || isFunctionKey (code event)) eqn:Hnon.
    + apply orb_true_iff in Hnon.
      now rewrite (nonText_unresolved event Hnon),
        (nonText_unmapped _ _ Hnon).
    + apply orb_false_iff in Hnon as [Hnon Hfn].
      rewrite resolveText_general by assumption. cbv zeta.
      rewrite Hletter, Hunusable. cbn [negb].
      destruct (has forceCodeMappedCodes (code event)); [|reflexivity].
      now destruct (mapPrintableCharacter _ _).
  - intros Hletter.
    destruct (letter_code _ Hletter) as [Hnon Hfn].
    destruct (letterKey_letter _ Hletter) as [c [Hcode [Hslice Hc]]].
    exists c. split; [assumption|].
    rewrite resolveText_general by assumption. cbv zeta.
    rewrite Hletter, Hunusable, Hslice. cbn [andb]. simpl letterToLowerCase.
    replace (isUpperAZ c) with true; [reflexivity|].
    symmetry. unfold isUpperAZ. rewrite andb_true_iff, !Z.leb_le. lia.
Qed.

Lemma unusable_text_falls_back_witness :
  producedText (keyDown (lit "Space") (Some [13]) false)
  = Some (Text (lit " ")).
Proof.
  refine (proj1 (unusable_text_falls_back
                   (keyDown (lit "Space") (Some [13]) false) _ _ _ _) _);
    reflexivity.
Defined.

(** Composed text is inserted without its carriage returns: on a key
    that is neither a plain letter key, a non-text or function key, nor
    force-mapped, an event with no ctrl, meta or alt whose composed text
    is usable inserts that text with every carriage return removed. *)
Theorem composed_text_loses_carriage_returns (bridge : Bridge)
    (event : GlobalKeyPayload) (st : State) :
  phase event = down ->
  ctrl event = false -> meta event = false -> alt event = false ->
  usableText event = true ->
  isLetterKey (code event) = false ->
  has nonTextKeyCodes (code event) = false ->
  isFunctionKey (code event) = false ->
  has forceCodeMappedCodes (code event) = false ->
  handleFocuslessGlobalKey bridge event st
  = Returns none (replaceSelectionWith (normalizedText event) st)
  /\ forall c, In c (normalizedText event) -> c <> 13.
Proof.
  intros Hphase Hctrl Hmeta Halt Husable Hletter Hnon Hfn Hforce. split.
  - rewrite text_production_step by assumption. unfold producedText.
    rewrite resolveText_general by assumption. cbv zeta.
    now rewrite Hletter, Hforce, Husable.
  - intros c Hc. unfold normalizedText in Hc.
    destruct (text event) as [raw|]; [|destruct Hc].
    unfold removeCarriageReturns in Hc. apply filter_In in Hc as [_ Hc].
    apply negb_true_iff, Z.eqb_neq in Hc. exact Hc.
Qed.

Lemma composed_text_loses_carriage_returns_witness :
  handleFocuslessGlobalKey brokenBridge
    (keyDown (lit "Space") (Some [13; 12288; 13]) false)
    (textState (lit "ab") 2 2)
  = Returns none (replaceSelectionWith [12288] (textState (lit "ab") 2 2)).
Proof.
  refine (proj1 (composed_text_loses_carriage_returns brokenBridge
            (keyDown (lit "Space") (Some [13; 12288; 13]) false)
            (textState (lit "ab") 2 2) _ _ _ _ _ _ _ _ _));
    reflexivity.
Defined.

(** ** More on the text buffer *)

Lemma len_length (s : str) : Z.to_nat (len s) = length s.
Proof. unfold len. apply Nat2Z.id. Qed.

Lemma skipn_app_exact {A} (a b : list A) : skipn (length a) (a ++ b) = b.
Proof. induction a as [|x a IH]; [reflexivity | exact IH]. Qed.

(** A state whose content is [pre], the selected text [sel] and [post]. *)
Lemma replaceSelectionWith_parts (t pre sel post : str) (st : State) :
  value st = pre ++ sel ++ post ->
  Z.min (selectionStart st) (selectionEnd st) = len pre ->
  Z.max (selectionStart st) (selectionEnd st) = len pre + len sel ->
  replaceSelectionWith t st =
  setSelection (len pre + len t) (len pre + len t)
    (setValue (pre ++ t ++ post) st).
Proof.
  intros Hvalue Hlo Hhi.
  assert (Hrange : inRange st).
  { unfold inRange. rewrite Hvalue, !len_app.
    pose proof (len_nonneg pre). pose proof (len_nonneg sel).
    pose proof (len_nonneg post). lia. }
  destruct (replaceSelectionWith_inside t st Hrange) as [-> _].
  rewrite Hlo, Hhi, Hvalue.
  rewrite len_length, firstn_app_exact.
  replace (Z.to_nat (len pre + len sel)) with (length (pre ++ sel))
    by (rewrite length_app; unfold len; lia).
  now rewrite (app_assoc pre sel post), skipn_app_exact.
Qed.

Lemma selection_parts (st : State) :
  inRange st ->
  exists pre sel post,
    value st = pre ++ sel ++ post
    /\ Z.min (selectionStart st) (selectionEnd st) = len pre
    /\ Z.max (selectionStart st) (selectionEnd st) = len pre + len sel
    /\ slice (value st) (Z.min (selectionStart st) (selectionEnd st))
         (Z.max (selectionStart st) (selectionEnd st)) = sel.
Proof.
  intros [Hstart Hend].
  set (lo := Z.min (selectionStart st) (selectionEnd st)).
  set (hi := Z.max (selectionStart st) (selectionEnd st)).
  assert (Hlo : 0 <= lo <= hi) by (subst lo hi; lia).
  assert (Hhi : hi <= len (value st)) by (subst hi; lia).
  exists (firstn (Z.to_nat lo) (value st)),
         (firstn (Z.to_nat (hi - lo)) (skipn (Z.to_nat lo) (value st))),
         (skipn (Z.to_nat (hi - lo)) (skipn (Z.to_nat lo) (value st))).
  rewrite firstn_skipn, firstn_skipn, len_firstn by lia.
  repeat split; try reflexivity.
  - unfold len. rewrite length_firstn, length_skipn. unfold len in Hhi. lia.
  - now apply slice_inside.
Qed.

Lemma replaceSelectionWith_twice (a b : str) (st : State) :
  inRange st ->
  replaceSelectionWith b (replaceSelectionWith a st)
  = replaceSelectionWith (a ++ b) st.
Proof.
  intros Hrange.
  destruct (selection_parts st Hrange) as [pre [sel [post [Hv [Hlo [Hhi _]]]]]].
  rewrite (replaceSelectionWith_parts a pre sel post st Hv Hlo Hhi).
  rewrite (replaceSelectionWith_parts (a ++ b) pre sel post st Hv Hlo Hhi).
  rewrite (replaceSelectionWith_parts b (pre ++ a) [] post);
    cbn [value selectionStart selectionEnd setSelection setValue];
    rewrite ?len_app, ?Z.min_id, ?Z.max_id;
    change (len []) with 0; try lia.
  - unfold setSelection, setValue. cbn.
    rewrite <- !app_assoc. f_equal; lia.
  - now rewrite <- app_assoc.
Qed.

(** Typing composes: replacing the selection by [a] and then inserting
    [b] at the caret this leaves is the same as replacing the selection
    by [a] followed by [b]. *)
Theorem replaceSelection_composes (a b : str) (st : State) :
  inRange st ->
  replaceSelectionWith b (replaceSelectionWith a st)
  = replaceSelectionWith (a ++ b) st.
Proof. apply replaceSelectionWith_twice. Qed.

Lemma replaceSelection_composes_witness :
  replaceSelectionWith (lit "b")
    (replaceSelectionWith (lit "a") (textState (lit "hello") 4 1))
  = replaceSelectionWith (lit "ab") (textState (lit "hello") 4 1).
Proof.
  apply (replaceSelection_composes (lit "a") (lit "b")).
  unfold inRange, len. simpl. lia.
Defined.

(** Backspace is Delete one step to the left: with a collapsed caret
    that is not at the start of the content, deleteBackward does what
    moveCaret(-1) followed by deleteForward does. *)
Theorem deleteBackward_is_left_then_deleteForward (st : State) :
  inRange st ->
  selectionStart st = selectionEnd st ->
  0 < selectionEnd st ->
  deleteBackward st = deleteForward (moveCaret (-1) false st).
Proof.
  intros [_ Hend] Hcollapsed Hpos.
  unfold deleteBackward, deleteForward, moveCaret, updateSelection.
  cbv zeta. cbn [start end_ toNormalizedRange].
  rewrite Hcollapsed, Z.min_id, Z.max_id, Z.eqb_refl. cbn [negb].
  rewrite !clamp_clamp by apply len_nonneg.
  rewrite (clamp_id (selectionEnd st + -1)) by lia.
  cbn [value selectionStart selectionEnd setSelection].
  rewrite Z.min_id, Z.max_id, Z.eqb_refl. cbn [negb].
  destruct (selectionEnd st =? 0) eqn:Hzero;
    [apply Z.eqb_eq in Hzero; lia|].
  destruct (len (value st) <=? selectionEnd st + -1) eqn:Hlast;
    [apply Z.leb_le in Hlast; lia|].
  replace (selectionEnd st + -1 + 1) with (selectionEnd st) by lia.
  replace (selectionEnd st - 1) with (selectionEnd st + -1) by lia.
  reflexivity.
Qed.

Lemma deleteBackward_is_left_then_deleteForward_witness :
  deleteBackward (textState (lit "hello") 3 3)
  = deleteForward (moveCaret (-1) false (textState (lit "hello") 3 3)).
Proof.
  apply deleteBackward_is_left_then_deleteForward.
  - unfold inRange, len. simpl. lia.
  - reflexivity.
  - reflexivity.
Defined.

Lemma setSelection_same (st : State) :
  setSelection (selectionStart st) (selectionEnd st) st = st.
Proof. now destruct st. Qed.

(** Moving the caret there and back: when selectionEnd + delta stays
    within the content, moveCaret(delta, extend) followed by
    moveCaret(-delta, extend) gives back the state, for an extending move
    from any selection and for a plain move from a collapsed one. *)
Theorem moveCaret_there_and_back (st : State) (delta : Z) (extend : bool) :
  inRange st ->
  0 <= selectionEnd st + delta <= len (value st) ->
  extend = true \/ selectionStart st = selectionEnd st ->
  moveCaret (- delta) extend (moveCaret delta extend st) = st.
Proof.
  intros [Hstart Hend] Hmove Hkind.
  pose proof (len_nonneg (value st)) as Hlen.
  destruct extend.
  - unfold moveCaret, updateSelection.
    cbn [value selectionStart selectionEnd setSelection].
    rewrite !clamp_clamp by assumption.
    rewrite (clamp_id (selectionEnd st + delta)) by assumption.
    rewrite (clamp_id (selectionStart st)) by assumption.
    replace (selectionEnd st + delta + - delta) with (selectionEnd st) by lia.
    rewrite (clamp_id (selectionEnd st)) by assumption.
    exact (setSelection_same st).
  - destruct Hkind as [Hkind|Hcollapsed]; [discriminate|].
    unfold moveCaret, updateSelection. cbv zeta.
    cbn [start end_ toNormalizedRange].
    rewrite Hcollapsed, Z.max_id, Z.eqb_refl. cbn [negb].
    rewrite !clamp_clamp by assumption.
    rewrite (clamp_id (selectionEnd st + delta)) by assumption.
    cbn [value selectionStart selectionEnd setSelection].
    rewrite Z.max_id, Z.eqb_refl. cbn [negb].
    replace (selectionEnd st + delta + - delta) with (selectionEnd st) by lia.
    rewrite ?clamp_clamp, (clamp_id (selectionEnd st)) by assumption.
    rewrite <- Hcollapsed at 1. exact (setSelection_same st).
Qed.

Lemma moveCaret_there_and_back_witness :
  moveCaret (- 1) true (moveCaret 1 true (textState (lit "hello") 4 1))
  = textState (lit "hello") 4 1.
Proof.
  apply (moveCaret_there_and_back (textState (lit "hello") 4 1) 1 true).
  - unfold inRange, len. simpl. lia.
  - unfold len. simpl. lia.
  - now left.
Defined.

(** Select all, then type: whatever the state, replacing the selection
    after a select-all leaves exactly the inserted text as content, with
    the caret after it; with the empty text it empties the content. *)
Theorem selectAll_then_replace (t : str) (st : State) :
  replaceSelectionWith t (runOp SelectAll st)
  = setSelection (len t) (len t) (setValue t st).
Proof.
  pose proof (len_nonneg (value st)) as Hlen.
  assert (Hrange : inRange (runOp SelectAll st))
    by apply updateSelection_inRange.
  destruct (replaceSelectionWith_inside t _ Hrange) as [-> _].
  cbn [runOp updateSelection value selectionStart selectionEnd
       setSelection setValue].
  rewrite (clamp_id 0), (clamp_id (len (value st))) by lia.
  rewrite Z.min_l, Z.max_r by lia.
  rewrite len_length, skipn_all. cbn [Z.to_nat firstn app].
  now rewrite app_nil_r.
Qed.

Lemma cut_shortcut (bridge : Bridge) (st : State) :
  handleFocuslessGlobalKey bridge (shortcut (lit "KeyX")) st
  = Returns none (if isEmpty (selectedText st) then st
                else replaceSelectionWith [] st).
Proof.
  unfold handleFocuslessGlobalKey, handleClipboardShortcut, selectedText.
  cbn [shortcut phase ctrl meta alt code negb orb andb]. evaluate_keys.
  cbv zeta. destruct (isEmpty _); [reflexivity|].
  now destruct (write_clipboard_text _ _).
Qed.

Lemma paste_shortcut (bridge : Bridge) (st : State) (clipboard : str) :
  read_clipboard_text bridge = Some clipboard ->
  handleFocuslessGlobalKey bridge (shortcut (lit "KeyV")) st
  = Returns none (if isEmpty clipboard then st
                else replaceSelectionWith clipboard st).
Proof.
  intros Hread.
  unfold handleFocuslessGlobalKey, handleClipboardShortcut.
  cbn [shortcut phase ctrl meta alt code negb orb andb]. evaluate_keys.
  cbv zeta. rewrite Hread. now destruct (isEmpty _).
Qed.

(** Cut and paste back: cutting a non-empty selection with ctrl+X and
    pasting the cut text with ctrl+V restores the content, with the caret
    collapsed at the maximum edge of the former selection, whether or not
    the clipboard write of the cut succeeded as long as the read returns
    that text. *)
Theorem cut_then_paste_restores (cutBridge pasteBridge : Bridge)
    (st : State) :
  inRange st ->
  selectionStart st <> selectionEnd st ->
  read_clipboard_text pasteBridge = Some (selectedText st) ->
  exists st1 st2,
    handleFocuslessGlobalKey cutBridge (shortcut (lit "KeyX")) st
    = Returns none st1
    /\ handleFocuslessGlobalKey pasteBridge (shortcut (lit "KeyV")) st1
       = Returns none st2
    /\ st2 = setSelection (Z.max (selectionStart st) (selectionEnd st))
               (Z.max (selectionStart st) (selectionEnd st)) st.
Proof.
  intros Hrange Hne Hread.
  pose proof (selectedText_not_empty st Hrange Hne) as Hsel.
  destruct (selection_parts st Hrange)
    as [pre [sel [post [Hv [Hlo [Hhi Hslice]]]]]].
  assert (Hselected : selectedText st = sel) by exact Hslice.
  rewrite Hslice in Hsel.
  exists (replaceSelectionWith [] st),
         (replaceSelectionWith sel (replaceSelectionWith [] st)).
  split; [|split].
  - rewrite cut_shortcut, Hselected. now rewrite Hsel.
  - rewrite (paste_shortcut pasteBridge _ sel) by congruence.
    now rewrite Hsel.
  - rewrite (replaceSelectionWith_twice [] sel st Hrange). cbn [app].
    rewrite (replaceSelectionWith_parts sel pre sel post st Hv Hlo Hhi).
    rewrite Hhi, <- Hv. now destruct st.
Qed.

Lemma cut_then_paste_restores_witness :
  exists st1 st2,
    handleFocuslessGlobalKey brokenBridge (shortcut (lit "KeyX"))
      (textState (lit "hello") 4 1) = Returns none st1
    /\ handleFocuslessGlobalKey
         {| write_clipboard_text := fun _ => true;
            read_clipboard_text := Some (lit "ell") |}
         (shortcut (lit "KeyV")) st1 = Returns none st2
    /\ st2 = setSelection 4 4 (textState (lit "hello") 4 1).
Proof.
  apply (cut_then_paste_restores brokenBridge
           {| write_clipboard_text := fun _ => true;
              read_clipboard_text := Some (lit "ell") |}
           (textState (lit "hello") 4 1)).
  - unfold inRange, len. simpl. lia.
  - discriminate.
  - reflexivity.
Defined.

Lemma slice_nonneg (s : str) (a b : Z) :
  0 <= a <= b ->
  slice s a b
  = firstn (Z.to_nat (Z.min b (len s)) - Z.to_nat (Z.min a (len s)))
      (skipn (Z.to_nat (Z.min a (len s))) s).
Proof.
  intros Hab. unfold slice, relIndex.
  destruct (a <? 0) eqn:Ha; [apply Z.ltb_lt in Ha; lia|].
  destruct (b <? 0) eqn:Hb; [apply Z.ltb_lt in Hb; lia|].
  f_equal. pose proof (len_nonneg s). lia.
Qed.

(** What is drawn is the content: for offsets that are not negative, in
    range or left beyond the end by a shorter value, the text before the
    selection, the selected text and the text after it are, in this
    order, exactly the content; the selected text is empty when no
    selection is shown, and not empty when one is shown and the offsets
    are in range. *)
Theorem segments_partition_content (st : State) :
  0 <= selectionStart st -> 0 <= selectionEnd st ->
  beforeText st ++ selectedText st ++ afterText st = value st
  /\ (hasSelection st = false -> selectedText st = [])
  /\ (inRange st -> hasSelection st = true -> selectedText st <> []).
Proof.
  intros Hstart Hend.
  unfold beforeText, selectedText, afterText, hasSelection. cbv zeta.
  cbn [start end_ toNormalizedRange].
  set (lo := Z.min (selectionStart st) (selectionEnd st)).
  set (hi := Z.max (selectionStart st) (selectionEnd st)).
  assert (Hlo : 0 <= lo <= hi) by (subst lo hi; lia).
  pose proof (len_nonneg (value st)) as Hlen.
  split; [|split].
  - rewrite !slice_nonneg by lia. unfold sliceFrom, relIndex.
    destruct (hi <? 0) eqn:Hneg; [apply Z.ltb_lt in Hneg; lia|].
    rewrite (Z.min_l 0) by lia. cbn [Z.to_nat skipn].
    rewrite Nat.sub_0_r.
    set (a := Z.to_nat (Z.min lo (len (value st)))).
    set (b := Z.to_nat (Z.min hi (len (value st)))).
    assert (Hab : (a <= b)%nat) by (subst a b; lia).
    replace (skipn b (value st))
      with (skipn (b - a) (skipn a (value st)))
      by (rewrite skipn_skipn; f_equal; lia).
    now rewrite firstn_skipn, firstn_skipn.
  - intros Hnone. apply negb_false_iff, Z.eqb_eq in Hnone.
    rewrite slice_nonneg by lia. rewrite Hnone, Nat.sub_diag.
    reflexivity.
  - intros Hrange Hshown. apply negb_true_iff, Z.eqb_neq in Hshown.
    assert (Hne : selectionStart st <> selectionEnd st)
      by (subst lo hi; lia).
    pose proof (selectedText_not_empty st Hrange Hne) as Hsel.
    fold lo hi in Hsel. intros Hempty. now rewrite Hempty in Hsel.
Qed.

Lemma segments_partition_content_witness :
  beforeText (textState (lit "hello") 9 3)
  ++ selectedText (textState (lit "hello") 9 3)
  ++ afterText (textState (lit "hello") 9 3)
  = lit "hello".
Proof.
  refine (proj1 (segments_partition_content
                   (textState (lit "hello") 9 3) _ _));
    simpl; lia.
Defined.

(** ** More on the suggestion engine *)

Lemma pop_cons {A} (x y : A) (l : list A) : pop (x :: y :: l) = pop (y :: l).
Proof. reflexivity. Qed.

(** The pieces of [split(/\s/)]: the first one and the others, and what
    the last one is. *)
Lemma splitWhiteSpace_last (s : str) :
  exists first others,
    splitWhiteSpace s = first :: others
    /\ forallb (fun c => negb (isWhiteSpace c)) first = true
    /\ match others with
       | [] => s = first /\ pop (splitWhiteSpace s) = Some first
       | _ :: _ =>
           exists pre w word,
             s = pre ++ [w] ++ word
             /\ isWhiteSpace w = true
             /\ forallb (fun c => negb (isWhiteSpace c)) word = true
             /\ pop (splitWhiteSpace s) = Some word
       end.
Proof.
  induction s as [|c s (first & others & Hsplit & Hfirst & Hlast)].
  - exists [], []. now repeat split.
  - assert (Hcons : splitWhiteSpace (c :: s)
                    = if isWhiteSpace c then [] :: first :: others
                      else (c :: first) :: others)
      by (simpl; now rewrite Hsplit).
    rewrite Hcons. destruct (isWhiteSpace c) eqn:Hc.
    + exists [], (first :: others). split; [reflexivity|].
      split; [reflexivity|]. rewrite pop_cons, <- Hsplit.
      destruct others as [|second others].
      * destruct Hlast as [-> Hpop]. exists [], c, first.
        now repeat split.
      * destruct Hlast as (pre & w & word & -> & Hw & Hword & Hpop).
        exists (c :: pre), w, word. now repeat split.
    + exists (c :: first), others. split; [reflexivity|].
      split; [simpl; now rewrite Hc|].
      destruct others as [|second others].
      * destruct Hlast as [-> _]. now split.
      * destruct Hlast as (pre & w & word & -> & Hw & Hword & Hpop).
        exists (c :: pre), w, word. repeat split; try assumption.
        rewrite pop_cons, <- (pop_cons first). now rewrite <- Hsplit.
Qed.

Lemma splitWhiteSpace_after_space (s : str) (w : Z) :
  isWhiteSpace w = true -> pop (splitWhiteSpace (s ++ [w])) = Some [].
Proof.
  intros Hw.
  assert (H : exists p ps, splitWhiteSpace (s ++ [w]) = (p :: ps) ++ [[]]).
  { induction s as [|c s (p & ps & IH)].
    - simpl. rewrite Hw. now exists [], [].
    - simpl. rewrite IH. destruct (isWhiteSpace c).
      + now exists [], (p :: ps).
      + now exists (c :: p), ps. }
  destruct H as (p & ps & ->).
  unfold pop. rewrite map_app. apply last_last.
Qed.

(** The caret of the suggestion engine and the text before it. *)
Lemma lastWord_of_context (st : State) :
  lastWord st =
  match pop (splitWhiteSpace (contextBeforeCaret st)) with
  | Some word => word
  | None => []
  end.
Proof. reflexivity. Qed.

(** The current word of the suggestion engine is the token that ends at
    the caret: the text before the caret is some prefix followed by the
    word, the word holds no whitespace character, and the prefix is empty
    or ends in one. *)
Theorem lastWord_is_token_before_caret (st : State) :
  exists pre,
    contextBeforeCaret st = pre ++ lastWord st
    /\ forallb (fun c => negb (isWhiteSpace c)) (lastWord st) = true
    /\ (pre = []
        \/ exists pre' w, pre = pre' ++ [w] /\ isWhiteSpace w = true).
Proof.
  rewrite lastWord_of_context.
  destruct (splitWhiteSpace_last (contextBeforeCaret st))
    as (first & others & Hsplit & Hfirst & Hlast).
  destruct others as [|second others].
  - destruct Hlast as [Hs ->]. exists []. repeat split; try assumption.
    now left.
  - destruct Hlast as (pre & w & word & Hs & Hw & Hword & ->).
    exists (pre ++ [w]). repeat split; try assumption.
    + now rewrite <- app_assoc.
    + right. now exists pre, w.
Qed.

Lemma insertSuggestion_context (suggestion : Suggestion) (st : State) :
  exists nextBefore,
    contextBeforeCaret (clampSelectionEffect (insertSuggestion suggestion st))
    = nextBefore ++ [32].
Proof.
  unfold insertSuggestion. cbv zeta.
  set (before := slice (value st) 0 _).
  set (after := sliceFrom (value st) _).
  set (replacement := match suggestion with
                      | Mention name => lit "@" ++ name
                      | Emoji entry => emoji entry
                      end).
  set (kept := slice before 0 _).
  exists (kept ++ replacement).
  set (nextBefore := kept ++ replacement ++ lit " ").
  assert (Hlen : 0 <= len nextBefore <= len (nextBefore ++ after)).
  { rewrite len_app.
    pose proof (len_nonneg nextBefore). pose proof (len_nonneg after). lia. }
  unfold contextBeforeCaret, clampSelectionEffect, applyValueAndSelection.
  cbn [value selectionStart selectionEnd setSelection setValue
       setShowSuggestions].
  repeat match goal with
         | |- context [clamp ?a 0 ?b] =>
             replace (clamp a 0 b) with (len nextBefore)
               by (unfold clamp; lia)
         end.
  rewrite Z.eqb_refl. cbn [negb].
  rewrite slice_prefix by exact Hlen.
  rewrite len_length, firstn_app_exact. subst nextBefore.
  now rewrite app_assoc.
Qed.

Section SuggestionEngine.

Variable toLowerCase : str -> str.
Variable findEmojiSuggestions : str -> list EmojiSuggestion.

Lemma recompute_without_word (names : list str) (st : State) :
  lastWord st = [] ->
  suggestions (recomputeSuggestions toLowerCase findEmojiSuggestions names st)
  = []
  /\ showSuggestions
       (recomputeSuggestions toLowerCase findEmojiSuggestions names st)
     = false.
Proof.
  intros Hword. unfold recomputeSuggestions. cbv zeta.
  now rewrite Hword.
Qed.

(** Inserting a suggestion ends the session for good: once the effects
    have run on the state [insertSuggestion] leaves, whatever the state
    before and whether or not the candidates are recomputed, the list is
    not shown, and a recomputation finds no candidate, because the text
    before the caret now ends in the space that was appended. *)
Theorem insertion_ends_session (suggestion : Suggestion) (st prev : State)
    (names : list str) (namesChanged : bool) :
  let inserted := insertSuggestion suggestion st in
  showSuggestions
    (runEffects toLowerCase findEmojiSuggestions namesChanged names prev
       inserted) = false
  /\ suggestions
       (recomputeSuggestions toLowerCase findEmojiSuggestions names
          (clampSelectionEffect inserted)) = [].
Proof.
  intros inserted. subst inserted.
  assert (Hword : lastWord (clampSelectionEffect
                              (insertSuggestion suggestion st)) = []).
  { rewrite lastWord_of_context.
    destruct (insertSuggestion_context suggestion st) as [nextBefore ->].
    now rewrite (splitWhiteSpace_after_space nextBefore 32). }
  destruct (recompute_without_word names _ Hword) as [Hnone Hclosed].
  split; [|exact Hnone].
  unfold runEffects. cbv zeta. now destruct (_ || _ || _).
Qed.

End SuggestionEngine.

Lemma str_eqb_refl (a : str) : eqb a a = true.
Proof. now apply str_eqb_eq. Qed.

Lemma distinct_spec (seen names : list str) :
  NoDup (distinct seen names)
  /\ forall name,
       In name (distinct seen names) <->
       In name names /\ has seen name = false.
Proof.
  revert seen. induction names as [|n names IH]; intros seen.
  - split; [constructor|]. simpl. tauto.
  - simpl. destruct (has seen n) eqn:Hseen.
    + destruct (IH seen) as [Hnodup Hin]. split; [assumption|].
      intros name. rewrite Hin. split; [tauto|].
      intros [[<-|H] Hnot]; [congruence | tauto].
    + destruct (IH (n :: seen)) as [Hnodup Hin]. split.
      * constructor; [|assumption]. rewrite Hin. intros [_ Hnot].
        simpl in Hnot. now rewrite str_eqb_refl in Hnot.
      * intros name. cbn [In]. rewrite Hin. cbn [has existsb].
        destruct (eqb name n) eqn:Heq; cbn [orb].
        -- apply str_eqb_eq in Heq. subst. intuition discriminate.
        -- assert (n <> name)
             by (intros ->; now rewrite str_eqb_refl in Heq).
           intuition.
Qed.

Section MentionCandidates.

Variable toLowerCase : str -> str.
Variable findEmojiSuggestions : str -> list EmojiSuggestion.

(** Mention candidates come from the messages, once each: when the
    current word starts with "@",
    the candidates recomputed from the user names of the properties are
    mentions of distinct authors of the messages, so that no two rows of
    the list share a key, and the list is shown exactly when there is
    one. *)
Theorem mention_candidates_are_distinct_authors (props : ChatInputProps)
    (st : State) :
  startsWith (lit "@") (lastWord st) = true ->
  let st' :=
    recomputeSuggestions toLowerCase findEmojiSuggestions (usernames props)
      st in
  NoDup (suggestions st')
  /\ (forall suggestion,
        In suggestion (suggestions st') ->
        exists name,
          suggestion = Mention name /\ In name (messages props))
  /\ (showSuggestions st' = true <-> suggestions st' <> []).
Proof.
  intros Hat st'. subst st'. unfold recomputeSuggestions. cbv zeta.
  rewrite Hat. cbn [suggestions showSuggestions].
  set (matches := filter _ (usernames props)).
  assert (Hnodup : NoDup matches).
  { subst matches. apply NoDup_filter. apply distinct_spec. }
  split; [|split].
  - clear -Hnodup. induction Hnodup as [|name l Hnot _ IH];
      [constructor|].
    simpl. constructor; [|assumption].
    intros Hin. apply in_map_iff in Hin as [other [[= ->] Hin]].
    contradiction.
  - intros suggestion Hin. apply in_map_iff in Hin as [name [<- Hin]].
    exists name. split; [reflexivity|].
    subst matches. apply filter_In in Hin as [Hin _].
    unfold usernames in Hin. now apply distinct_spec in Hin.
  - rewrite Z.ltb_lt. destruct (map Mention matches); simpl length;
      split; first [lia | congruence | discriminate | idtac].
Qed.

End MentionCandidates.

Lemma mention_candidates_are_distinct_authors_witness :
  NoDup
    (suggestions
       (recomputeSuggestions letterToLowerCase (fun _ => [])
          (usernames
             {| messages := [lit "alice"; lit "bob"; lit "alice"];
                maxLength := 280; mode := focusless;
                captureActive := true |})
          (textState (lit "hi @") 4 4))).
Proof.
  refine (proj1 (mention_candidates_are_distinct_authors
                   letterToLowerCase (fun _ => [])
                   {| messages := [lit "alice"; lit "bob"; lit "alice"];
                      maxLength := 280; mode := focusless;
                      captureActive := true |}
                   (textState (lit "hi @") 4 4) _)).
  reflexivity.
Defined.

(** ** More on the interpreter *)

Lemma handleFocuslessGlobalKey_member (bridge : Bridge)
    (event : GlobalKeyPayload) (st : State) (name : str) :
  handleFocuslessGlobalKey bridge event st = InsertsMember name ->
  name = code event /\ isObjectPrototypeMember name = true.
Proof.
  unfold handleFocuslessGlobalKey.
  destruct (phase event); [|discriminate].
  destruct (handleClipboardShortcut bridge event st) as [handled st1].
  destruct handled; [discriminate|]. cbv zeta.
  repeat match goal with
         | |- context [if ?c then _ else _] => destruct c; try discriminate
         end.
  { now destruct (insertActiveSuggestion st). }
  pose proof (resolveText_printable event) as Hresolved.
  destruct (resolveTextFromGlobalEvent event) as [[resolved|other]|];
    [discriminate | destruct Hresolved |].
  destruct (mapPrintableCharacter _ _) as [[printable|other]|] eqn:Hmapped;
    try discriminate.
  intros [= <-]. apply mapPrintableCharacter_member in Hmapped as [-> H].
  now split.
Qed.

Lemma handleFocuslessGlobalKey_throws (bridge : Bridge)
    (event : GlobalKeyPayload) (st : State) :
  handleFocuslessGlobalKey bridge event st = Throws ->
  code event = lit "Tab" /\ suggestionAt st = None.
Proof.
  unfold handleFocuslessGlobalKey.
  destruct (phase event); [|discriminate].
  destruct (handleClipboardShortcut bridge event st) as [handled st1].
  destruct handled; [discriminate|].
  destruct (negb (ctrl event) && negb (meta event) && negb (alt event));
    [|discriminate].
  cbv zeta.
  destruct (eqb (code event) (lit "Escape")); [discriminate|].
  destruct (eqb (code event) (lit "ArrowDown") && suggestionsOpen st);
    [discriminate|].
  destruct (eqb (code event) (lit "ArrowUp") && suggestionsOpen st);
    [discriminate|].
  destruct (eqb (code event) (lit "Tab") && suggestionsOpen st) eqn:Htab.
  { apply andb_prop in Htab as [Hcode _]. apply str_eqb_eq in Hcode.
    unfold insertActiveSuggestion.
    now destruct (suggestionAt st). }
  repeat match goal with
         | |- context [if ?c then _ else _] => destruct c; [discriminate|]
         end.
  destruct (resolveTextFromGlobalEvent event) as [[resolved|name]|];
    try discriminate.
  destruct (mapPrintableCharacter _ _) as [[printable|name]|];
    discriminate.
Qed.

(** The interpreter keeps the offsets in range: whatever the mode, the
    event and the replies of the clipboard bridge, from a state whose
    offsets lie within the content, a call that leaves a state leaves one
    whose offsets lie within the content. A call leaves none in two
    cases only: when it throws, which it does only on Tab with
    suggestions[activeIndex] undefined, and when it hands a member of
    Object.prototype to replaceSelectionWith, which it does only in
    focusless mode for a key code that is the name of that member. *)
Theorem interpreter_keeps_offsets_in_range (props : ChatInputProps)
    (bridge : Bridge) (event : GlobalKeyPayload) (st : State) :
  inRange st ->
  match handleGlobalKey props bridge event st with
  | Returns _ st' => inRange st'
  | Throws => code event = lit "Tab" /\ suggestionAt st = None
  | InsertsMember name =>
      mode props = focusless /\ name = code event
      /\ isObjectPrototypeMember name = true
  end.
Proof.
  intros Hrange. unfold handleGlobalKey. destruct (mode props);
    [exact Hrange|].
  destruct (handleFocuslessGlobalKey bridge event st)
    as [action st'| |name] eqn:Hhandled.
  - now apply handleFocuslessGlobalKey_inRange in Hhandled.
  - now apply handleFocuslessGlobalKey_throws in Hhandled.
  - apply handleFocuslessGlobalKey_member in Hhandled. tauto.
Qed.

Lemma interpreter_keeps_offsets_in_range_witness :
  inRange (deleteBackward (textState (lit "hello") 4 1))
  /\ isObjectPrototypeMember (lit "__proto__") = true.
Proof.
  split.
  - apply (interpreter_keeps_offsets_in_range (focuslessProps 280)
             brokenBridge (keyDown (lit "Backspace") None false)
             (textState (lit "hello") 4 1)).
    unfold inRange, len. simpl. lia.
  - refine (proj2 (proj2 (interpreter_keeps_offsets_in_range
                            (focuslessProps 280) brokenBridge
                            (keyDown (lit "__proto__") None false)
                            (textState (lit "hello") 4 1) _))).
    unfold inRange, len. simpl. lia.
Defined.

(** ArrowDown and ArrowUp undo each other: on a shown session whose
    active index designates a candidate, pressing one and then the other
    gives back the state, also across the wrap-around at either end of
    the list. *)
Theorem arrows_undo_each_other (bridge : Bridge) (shift : bool)
    (st : State) :
  suggestionsOpen st = true -> sessionOk st ->
  let press code st := handleFocuslessGlobalKey bridge
                         (keyDown (lit code) None shift) st in
  (exists st1, press "ArrowDown"%string st = Returns none st1
               /\ press "ArrowUp"%string st1 = Returns none st)
  /\ (exists st1, press "ArrowUp"%string st = Returns none st1
                  /\ press "ArrowDown"%string st1 = Returns none st).
Proof.
  intros Hopen Hok press. subst press. cbv beta.
  destruct (nextIndex_wraps st Hopen Hok) as [_ Hnext].
  destruct (previousIndex_wraps st Hopen Hok) as [_ Hprev].
  pose proof (suggestionsOpen_inv st Hopen) as [Hshow Hn].
  specialize (Hok Hshow).
  assert (Hdown : handleFocuslessGlobalKey bridge
                    (keyDown (lit "ArrowDown") None shift) st
                  = Returns none (setActiveIndex (nextIndex st) st))
    by (unfold handleFocuslessGlobalKey; simpl; now rewrite Hopen).
  assert (Hup : handleFocuslessGlobalKey bridge
                  (keyDown (lit "ArrowUp") None shift) st
                = Returns none (setActiveIndex (previousIndex st) st))
    by (unfold handleFocuslessGlobalKey; simpl; now rewrite Hopen).
  split.
  - exists (setActiveIndex (nextIndex st) st). split; [exact Hdown|].
    unfold handleFocuslessGlobalKey. simpl.
    change (suggestionsOpen (setActiveIndex (nextIndex st) st))
      with (suggestionsOpen st). rewrite Hopen. simpl.
    do 2 f_equal. destruct st as [v a b sugg show i]. simpl in *.
    unfold setActiveIndex, previousIndex, nextIndex in *. simpl in *.
    f_equal.
    destruct (Z.rem (i + 1) (Z.of_nat (length sugg)) =? 0) eqn:Hzero.
    + apply Z.eqb_eq in Hzero.
      rewrite Z.rem_mod_nonneg in Hzero by lia.
      destruct (Z.eq_dec (i + 1) (Z.of_nat (length sugg))) as [Heq|Hne];
        [lia|].
      rewrite Z.mod_small in Hzero by lia. lia.
    + apply Z.eqb_neq in Hzero.
      rewrite Z.rem_mod_nonneg in * by lia.
      destruct (Z.eq_dec (i + 1) (Z.of_nat (length sugg))) as [Heq|Hne].
      * rewrite Heq, Z.mod_same in Hzero by lia. lia.
      * rewrite Z.mod_small by lia. lia.
  - exists (setActiveIndex (previousIndex st) st). split; [exact Hup|].
    unfold handleFocuslessGlobalKey. simpl.
    change (suggestionsOpen (setActiveIndex (previousIndex st) st))
      with (suggestionsOpen st). rewrite Hopen. simpl.
    do 2 f_equal. destruct st as [v a b sugg show i]. simpl in *.
    unfold setActiveIndex, previousIndex, nextIndex in *. simpl in *.
    f_equal. rewrite Z.rem_mod_nonneg by (destruct (i =? 0); lia).
    destruct (i =? 0) eqn:Hzero.
    + apply Z.eqb_eq in Hzero. subst i.
      replace (Z.of_nat (length sugg) - 1 + 1) with (Z.of_nat (length sugg))
        by lia.
      apply Z.mod_same. lia.
    + apply Z.eqb_neq in Hzero. replace (i - 1 + 1) with i by lia.
      apply Z.mod_small. lia.
Qed.

Lemma arrows_undo_each_other_witness :
  let st :=
    {| value := lit "@al"; selectionStart := 3; selectionEnd := 3;
       suggestions := [Mention (lit "alice"); Mention (lit "albert")];
       showSuggestions := true; activeIndex := 1 |} in
  exists st1,
    handleFocuslessGlobalKey brokenBridge
      (keyDown (lit "ArrowDown") None false) st = Returns none st1
    /\ handleFocuslessGlobalKey brokenBridge
         (keyDown (lit "ArrowUp") None false) st1 = Returns none st.
Proof.
  intros st.
  refine (proj1 (arrows_undo_each_other brokenBridge false st _ _)).
  - reflexivity.
  - unfold sessionOk. simpl. lia.
Defined.

Section NoException.

Variable toLowerCase : str -> str.
Variable findEmojiSuggestions : str -> list EmojiSuggestion.

(** No key event makes the interpreter throw: in every state the
    component can reach, whatever the mode, the event and the replies of
    the clipboard bridge, handleGlobalKey does not throw, and unless the
    key code is the name of a member of Object.prototype it returns an
    action and a state; in particular Tab on a shown list always finds
    suggestions[activeIndex] defined. *)
Theorem reachable_keys_never_throw (props current : ChatInputProps)
    (bridge : Bridge) (event : GlobalKeyPayload) (st : State) :
  reachable toLowerCase findEmojiSuggestions props st ->
  handleGlobalKey current bridge event st <> Throws
  /\ (isObjectPrototypeMember (code event) = false ->
      exists action st',
        handleGlobalKey current bridge event st = Returns action st').
Proof.
  intros Hreach.
  assert (Hthrow : handleGlobalKey current bridge event st <> Throws).
  { unfold handleGlobalKey.
    destruct (mode current); [discriminate|].
    unfold handleFocuslessGlobalKey.
    destruct (phase event); [|discriminate].
    destruct (handleClipboardShortcut bridge event st) as [handled st1].
    destruct handled; [discriminate|].
    destruct (negb (ctrl event) && negb (meta event) && negb (alt event));
      [|discriminate].
    cbv zeta.
    destruct (eqb (code event) (lit "Escape")); [discriminate|].
    destruct (eqb (code event) (lit "ArrowDown") && suggestionsOpen st);
      [discriminate|].
    destruct (eqb (code event) (lit "ArrowUp") && suggestionsOpen st);
      [discriminate|].
    destruct (eqb (code event) (lit "Tab") && suggestionsOpen st) eqn:Htab.
    { apply andb_prop in Htab as [_ Hopen].
      destruct (reachable_tab_inserts toLowerCase findEmojiSuggestions
                  props st Hreach Hopen) as [suggestion [_ ->]].
      discriminate. }
    repeat match goal with
           | |- context [if ?c then _ else _] => destruct c; [discriminate|]
           end.
    destruct (resolveTextFromGlobalEvent event) as [[resolved|name]|];
      try discriminate.
    destruct (mapPrintableCharacter _ _) as [[printable|name]|];
      discriminate. }
  split; [exact Hthrow|]. intros Hcode.
  destruct (handleGlobalKey current bridge event st)
    as [action st'| |name] eqn:Hhandled.
  - now exists action, st'.
  - contradiction.
  - unfold handleGlobalKey in Hhandled.
    destruct (mode current); [discriminate|].
    apply handleFocuslessGlobalKey_member in Hhandled as [-> Hmember].
    congruence.
Qed.

End NoException.

Lemma reachable_keys_never_throw_witness :
  let props :=
    {| messages := [lit "alice"]; maxLength := 280; mode := focusless;
       captureActive := true |} in
  let mounted :=
    runEffects letterToLowerCase (fun _ => []) true (usernames props)
      (initialState (lit "@al")) (initialState (lit "@al")) in
  let focused :=
    runEffects letterToLowerCase (fun _ => []) false (usernames props)
      mounted (focusImeInput mounted) in
  suggestionsOpen focused = true
  /\ exists action st',
       handleGlobalKey props brokenBridge
         (keyDown (lit "Tab") None false) focused = Returns action st'.
Proof.
  intros props mounted focused. split; [reflexivity|].
  refine (proj2 (reachable_keys_never_throw letterToLowerCase (fun _ => [])
                   props props brokenBridge
                   (keyDown (lit "Tab") None false) focused _) _).
  - apply (reach_input letterToLowerCase (fun _ => []) props mounted
             FocusImeInput (focusImeInput mounted)).
    + apply reach_mount.
    + reflexivity.
  - reflexivity.
Defined.

Lemma insertSuggestion_replaces_word_witness :
  insertSuggestion (Mention (lit "alice")) (textState (lit "hello @al") 9 9)
  = setShowSuggestions false
      (setSelection 13 13
         (setValue ((lit "hello " ++ lit "@alice" ++ lit " ") ++ [])
            (textState (lit "hello @al") 9 9))).
Proof.
  refine (insertSuggestion_replaces_word (Mention (lit "alice"))
            (textState (lit "hello @al") 9 9) (lit "hello ") (lit "@al")
            _ _ _ _ _).
  - unfold inRange, len. simpl. lia.
  - reflexivity.
  - reflexivity.
  - right. now exists (lit "hello"), 32.
  - reflexivity.
Defined.

(** ** Sending messages *)

Import Chat.

Lemma recorded_mapSet_same (m : Timestamps) (key : str) (v : list Z) :
  recorded (mapSet m key v) key = v.
Proof.
  unfold recorded, mapGet. induction m as [|[k old] m IH]; simpl.
  - assert (H : eqb key key = true) by now apply str_eqb_eq.
    now rewrite H.
  - destruct (eqb k key) eqn:Hk; simpl; rewrite Hk; [reflexivity|exact IH].
Qed.

Lemma recorded_mapSet_other (m : Timestamps) (key other : str) (v : list Z) :
  eqb key other = false ->
  recorded (mapSet m key v) other = recorded m other.
Proof.
  intros Hne. unfold recorded, mapGet.
  induction m as [|[k old] m IH]; simpl.
  - now rewrite Hne.
  - destruct (eqb k key) eqn:Hk; simpl.
    + apply str_eqb_eq in Hk. subst k. now rewrite Hne.
    + destruct (eqb k other); [reflexivity | exact IH].
Qed.

(** What one call leaves, by cases. *)
Lemma sendMessage_cases (chatLimits : ChatLimits) (scopeKey : str)
    (m : Timestamps) (text : str) (now : Z) (delivery : Delivery) :
  let r := sendMessage chatLimits scopeKey m text now delivery in
  let recent :=
    filter (fun t => now - rateLimitWindowMs chatLimits <? t)
      (recorded m scopeKey) in
  (sent r = false /\ timestamps r = m /\ published r = None)
  \/ (sent r = true
      /\ len recent < rateLimitCount chatLimits
      /\ timestamps r = mapSet m scopeKey (recent ++ [now])
      /\ exists activeJobId,
           delivery = Published activeJobId
           /\ published r = Some (activeJobId, trim text)
           /\ errorSet r = Some None).
Proof.
  intros r recent. subst r recent.
  unfold sendMessage, recorded. cbv zeta.
  destruct (isEmpty (trim text)); [now left|].
  destruct (maxMessageLength chatLimits <? len (trim text)); [now left|].
  destruct (rateLimitCount chatLimits <=? len _) eqn:Hlimit; [now left|].
  apply Z.leb_gt in Hlimit.
  destruct delivery as [activeJobId|message]; [|now left].
  right. repeat split; try assumption. now exists activeJobId.
Qed.

(** A call that returns false, whether the text was blank or too long,
    the rate limit was hit or the delivery threw, leaves the recorded
    history as it was and publishes nothing; a call that returns true has
    published the trimmed text on the channel of the refreshed job id and
    cleared the error. *)
Theorem refused_send_changes_nothing (chatLimits : ChatLimits)
    (scopeKey : str) (m : Timestamps) (text : str) (now : Z)
    (delivery : Delivery) :
  let r := sendMessage chatLimits scopeKey m text now delivery in
  (sent r = false -> timestamps r = m /\ published r = None)
  /\ (sent r = true ->
      exists activeJobId,
        delivery = Published activeJobId
        /\ published r = Some (activeJobId, trim text)
        /\ errorSet r = Some None).
Proof.
  intros r. subst r.
  destruct (sendMessage_cases chatLimits scopeKey m text now delivery)
    as [(Hsent & Hsame & Hnone)|(Hsent & _ & _ & Hpublished)];
    rewrite Hsent; split; intros H; try discriminate; auto.
Qed.

Lemma refused_send_changes_nothing_witness :
  let m := [(lit "7", [1000; 2000; 3000; 4000])] in
  timestamps (sendMessage FALLBACK_CHAT_LIMITS (lit "7") m (lit "hi") 4500
                (Published (lit "global"))) = m
  /\ published (sendMessage FALLBACK_CHAT_LIMITS (lit "7") m (lit "hi") 4500
                  (Published (lit "global"))) = None.
Proof.
  intros m.
  refine (proj1 (refused_send_changes_nothing FALLBACK_CHAT_LIMITS
                   (lit "7") m (lit "hi") 4500 (Published (lit "global")))
            _).
  reflexivity.
Defined.

Lemma filter_weaker {A} (f g : A -> bool) (l : list A) :
  (forall x, f x = true -> g x = true) ->
  filter f (filter g l) = filter f l.
Proof.
  intros Hfg. induction l as [|x l IH]; [reflexivity|]. simpl.
  destruct (g x) eqn:Hg; simpl.
  - now rewrite IH.
  - destruct (f x) eqn:Hf; [|exact IH].
    apply Hfg in Hf. congruence.
Qed.

Lemma deliveredTimes_snoc (scopeKey key : str) (now : Z)
    (log : list (str * Z)) :
  deliveredTimes scopeKey (log ++ [(key, now)])
  = deliveredTimes scopeKey log ++ (if eqb key scopeKey then [now] else []).
Proof.
  unfold deliveredTimes. rewrite filter_app, map_app. simpl.
  now destruct (eqb key scopeKey).
Qed.

Lemma sendNext_tracks (chatLimits : ChatLimits) (bound : Z) (h : History)
    (a : Attempt) :
  tracks chatLimits bound h -> bound <= clock a ->
  tracks chatLimits (clock a) (sendNext chatLimits h a).
Proof.
  intros Htracks Hbound scopeKey cutoff Hcutoff.
  unfold sendNext. cbv zeta.
  destruct (sendMessage_cases chatLimits (scope a) (fst h) (body a)
              (clock a) (outcome a))
    as [(Hsent & Hsame & _)|(Hsent & _ & Hset & _)];
    rewrite Hsent; cbn [fst snd].
  - rewrite Hsame. apply Htracks. lia.
  - rewrite Hset, deliveredTimes_snoc.
    destruct (eqb (scope a) scopeKey) eqn:Hkey.
    + apply str_eqb_eq in Hkey. subst scopeKey.
      rewrite recorded_mapSet_same, !filter_app. f_equal.
      rewrite filter_weaker
        by (intros t; rewrite !Z.ltb_lt; lia).
      apply Htracks. lia.
    + rewrite recorded_mapSet_other, app_nil_r by assumption.
      apply Htracks. lia.
Qed.

Lemma rate_limit_from (chatLimits : ChatLimits) (a : Attempt)
    (attempts : list Attempt) :
  forall (h : History) (bound : Z),
    tracks chatLimits bound h ->
    nondecreasingFrom bound (map clock (attempts ++ [a])) ->
    let h' := fold_left (sendNext chatLimits) attempts h in
    sent (sendMessage chatLimits (scope a) (fst h') (body a) (clock a)
            (outcome a)) = true ->
    len (filter (fun t => clock a - rateLimitWindowMs chatLimits <? t)
           (deliveredTimes (scope a) (snd h')))
    < rateLimitCount chatLimits.
Proof.
  induction attempts as [|x attempts IH]; intros h bound Htracks Hclock.
  - simpl in *. intros Hsent.
    destruct (sendMessage_cases chatLimits (scope a) (fst h) (body a)
                (clock a) (outcome a))
      as [(Hrefused & _)|(_ & Hcount & _)]; [congruence|].
    rewrite <- (Htracks (scope a)) by lia. exact Hcount.
  - simpl in Hclock. destruct Hclock as [Hbound Hrest].
    simpl fold_left. apply (IH _ (clock x)); [|exact Hrest].
    now apply sendNext_tracks with (bound := bound).
Qed.

(** The rate limit holds: when calls are made one after the other on a
    clock that never goes back, starting from the empty history, a call
    returns true only if fewer than rateLimitCount of the messages
    published before it under the same scope key lie within the
    rateLimitWindowMs before it. *)
Theorem rate_limit_is_respected (chatLimits : ChatLimits)
    (attempts : list Attempt) (a : Attempt) :
  nondecreasing (map clock (attempts ++ [a])) ->
  let h := sendAll chatLimits attempts in
  sent (sendMessage chatLimits (scope a) (fst h) (body a) (clock a)
          (outcome a)) = true ->
  len (filter (fun t => clock a - rateLimitWindowMs chatLimits <? t)
         (deliveredTimes (scope a) (snd h)))
  < rateLimitCount chatLimits.
Proof.
  intros Hclock.
  assert (Hempty : forall bound, tracks chatLimits bound ([], []))
    by (intros bound scopeKey cutoff _; reflexivity).
  destruct attempts as [|x attempts].
  - apply (rate_limit_from chatLimits a [] ([], []) (clock a));
      [apply Hempty|]. simpl. split; [lia | exact I].
  - apply (rate_limit_from chatLimits a (x :: attempts) ([], []) (clock x));
      [apply Hempty|]. simpl in *. split; [lia | exact Hclock].
Qed.

Lemma rate_limit_is_respected_witness :
  let send t :=
    {| scope := lit "7"; body := lit "hi"; clock := t;
       outcome := Published (lit "global") |} in
  len (filter (fun t => 6500 - 5000 <? t)
         (deliveredTimes (lit "7")
            (snd (sendAll FALLBACK_CHAT_LIMITS
                    [send 1000; send 2000; send 3000; send 4000;
                     send 4500]))))
  < 4.
Proof.
  intros send.
  apply (rate_limit_is_respected FALLBACK_CHAT_LIMITS
           [send 1000; send 2000; send 3000; send 4000; send 4500]
           (send 6500)).
  - simpl. lia.
  - reflexivity.
Defined.

Lemma sendNext_withinLimit (chatLimits : ChatLimits) (h : History)
    (a : Attempt) :
  withinLimit chatLimits (fst h) ->
  withinLimit chatLimits (fst (sendNext chatLimits h a)).
Proof.
  intros Hwithin scopeKey. unfold sendNext. cbv zeta. cbn [fst].
  destruct (sendMessage_cases chatLimits (scope a) (fst h) (body a)
              (clock a) (outcome a))
    as [(_ & -> & _)|(_ & Hcount & -> & _)]; [apply Hwithin|].
  destruct (eqb (scope a) scopeKey) eqn:Hkey.
  - apply str_eqb_eq in Hkey. subst scopeKey.
    rewrite recorded_mapSet_same, len_app. change (len [clock a]) with 1.
    lia.
  - rewrite recorded_mapSet_other by assumption. apply Hwithin.
Qed.

Lemma sendAll_withinLimit (chatLimits : ChatLimits)
    (attempts : list Attempt) :
  withinLimit chatLimits (fst (sendAll chatLimits attempts)).
Proof.
  unfold sendAll.
  assert (H : forall h, withinLimit chatLimits (fst h) ->
                withinLimit chatLimits
                  (fst (fold_left (sendNext chatLimits) attempts h))).
  { induction attempts as [|x attempts IH]; intros h Hh; [exact Hh|].
    simpl. apply IH. now apply sendNext_withinLimit. }
  apply H. intros scopeKey. unfold recorded. simpl.
  change (len []) with 0. lia.
Qed.

Lemma filter_shorter {A} (f : A -> bool) (x : A) (l : list A) :
  In x l -> f x = false -> (length (filter f l) < length l)%nat.
Proof.
  intros Hin Hx. induction l as [|y l IH]; [destruct Hin|].
  simpl. pose proof (filter_length_le f l) as Hle.
  destruct Hin as [->|Hin].
  - rewrite Hx. lia.
  - specialize (IH Hin). destruct (f y); simpl; lia.
Qed.

Lemma ceilSeconds_covers (ms : Z) : ms <= 1000 * ceilSeconds ms.
Proof.
  unfold ceilSeconds. pose proof (Z.mul_div_le (- ms) 1000 eq_refl). lia.
Qed.

(** The wait announced is long enough: in a history built by calls made
    one after the other, when a call is refused with "Try again in s
    seconds", the same text sent s seconds later or more, nothing being
    sent in between, is no longer refused, and is published if the
    delivery does not throw. *)
Theorem retry_hint_is_sufficient (chatLimits : ChatLimits)
    (attempts : list Attempt) (scopeKey text : str) (now : Z)
    (delivery : Delivery) (seconds : Z) :
  let m := fst (sendAll chatLimits attempts) in
  errorSet (sendMessage chatLimits scopeKey m text now delivery)
  = Some (Some (RateLimitHit (Some seconds))) ->
  forall later activeJobId,
    now + 1000 * seconds <= later ->
    sent (sendMessage chatLimits scopeKey m text later
            (Published activeJobId)) = true.
Proof.
  intros m Hrefused later activeJobId Hlater.
  pose proof (sendAll_withinLimit chatLimits attempts scopeKey) as Hwithin.
  fold m in Hwithin. revert Hrefused.
  unfold sendMessage. cbv zeta. fold (recorded m scopeKey).
  destruct (isEmpty (trim text)); [discriminate|].
  destruct (maxMessageLength chatLimits <? len (trim text));
    [discriminate|].
  set (recent := filter _ (recorded m scopeKey)).
  destruct (rateLimitCount chatLimits <=? len recent) eqn:Hhit;
    [|destruct delivery; discriminate].
  destruct recent as [|first rest] eqn:Hrecent; [discriminate|].
  cbn [option_map sent errorSet]. intros [= <-].
  assert (Hfirst : In first (recorded m scopeKey)
                   /\ now - rateLimitWindowMs chatLimits < first).
  { assert (Hin : In first recent) by (rewrite Hrecent; now left).
    subst recent. apply filter_In in Hin as [Hin Hlt].
    apply Z.ltb_lt in Hlt. now split. }
  destruct Hfirst as [Hin Hafter].
  pose proof (ceilSeconds_covers
                (Z.max 0 (first + rateLimitWindowMs chatLimits - now)))
    as Hceil.
  set (recent' := filter _ (recorded m scopeKey)).
  assert (Hshorter : (length recent' < length (recorded m scopeKey))%nat).
  { subst recent'. apply filter_shorter with (x := first); [exact Hin|].
    apply Z.ltb_ge. lia. }
  destruct (rateLimitCount chatLimits <=? len recent') eqn:Hhit';
    [|reflexivity].
  apply Z.leb_le in Hhit'. unfold len in *. lia.
Qed.

Lemma retry_hint_is_sufficient_witness :
  let send t :=
    {| scope := lit "7"; body := lit "hi"; clock := t;
       outcome := Published (lit "global") |} in
  sent (sendMessage FALLBACK_CHAT_LIMITS (lit "7")
          (fst (sendAll FALLBACK_CHAT_LIMITS
                  [send 1000; send 2000; send 3000; send 4000]))
          (lit "hi") 6500 (Published (lit "global"))) = true.
Proof.
  intros send.
  apply (retry_hint_is_sufficient FALLBACK_CHAT_LIMITS
           [send 1000; send 2000; send 3000; send 4000]
           (lit "7") (lit "hi") 4500 (Thrown None) 2).
  - reflexivity.
  - lia.
Defined.

(** The counter of the input and the length check of sending agree: for
    a text that is not blank, sendMessage refuses it for its length
    exactly when the input rendered with maxLength equal to
    maxMessageLength shows a negative count of remaining characters, and
    such a text is never published. *)
Theorem over_limit_text_is_refused (chatLimits : ChatLimits)
    (props : ChatInputProps) (st : State) (scopeKey : str)
    (m : Timestamps) (now : Z) (delivery : Delivery) :
  maxLength props = maxMessageLength chatLimits ->
  trim (value st) <> [] ->
  let r := sendMessage chatLimits scopeKey m (value st) now delivery in
  (isOverLimit props st = true <->
   errorSet r = Some (Some (MessageExceeds (maxLength props))))
  /\ (isOverLimit props st = true -> sent r = false /\ published r = None).
Proof.
  intros Hmax Hcontent r. subst r.
  unfold isOverLimit, remainingChars, sendMessage. cbv zeta.
  rewrite Hmax.
  destruct (trim (value st)) as [|c content] eqn:Htrim; [congruence|].
  cbn [isEmpty].
  destruct (maxMessageLength chatLimits <? len (c :: content)) eqn:Hlong.
  - apply Z.ltb_lt in Hlong. simpl. rewrite Z.ltb_lt.
    split; [split; [reflexivity | lia] | now split].
  - apply Z.ltb_ge in Hlong.
    split; [split|]; try (rewrite Z.ltb_lt; lia).
    destruct (_ <=? _); [discriminate|].
    destruct delivery; discriminate.
Qed.

Lemma over_limit_text_is_refused_witness :
  sent (sendMessage
          {| maxMessageLength := 3; rateLimitCount := 4;
             rateLimitWindowMs := 5000 |}
          (lit "7") [] (lit " abcd ") 0 (Published (lit "global")))
  = false
  /\ published (sendMessage
          {| maxMessageLength := 3; rateLimitCount := 4;
             rateLimitWindowMs := 5000 |}
          (lit "7") [] (lit " abcd ") 0 (Published (lit "global")))
     = None.
Proof.
  refine (proj2 (over_limit_text_is_refused
            {| maxMessageLength := 3; rateLimitCount := 4;
               rateLimitWindowMs := 5000 |}
            (focuslessProps 3) (textState (lit " abcd ") 0 0)
            (lit "7") [] 0 (Published (lit "global")) _ _) _).
  - reflexivity.
  - discriminate.
  - reflexivity.
Defined.

(** ** The API address *)

Import Store.

Lemma dropSlashes_app (x y : str) (c : Z) :
  c <> 47 -> dropSlashes (x ++ c :: y) = dropSlashes x ++ c :: y.
Proof.
  intros Hc. induction x as [|d x IH]; simpl.
  - apply Z.eqb_neq in Hc. now rewrite Hc.
  - destruct (d =? 47); [exact IH | reflexivity].
Qed.

Lemma stripTrailingSlashes_keeps (a b : str) (c : Z) :
  c <> 47 ->
  stripTrailingSlashes (a ++ c :: b) = a ++ c :: stripTrailingSlashes b.
Proof.
  intros Hc. unfold stripTrailingSlashes.
  rewrite rev_app_distr. simpl rev. rewrite <- app_assoc. simpl app.
  rewrite dropSlashes_app by assumption.
  rewrite rev_app_distr. simpl rev. rewrite rev_involutive.
  now rewrite <- app_assoc.
Qed.

Lemma dropSlashes_head (s : str) :
  match dropSlashes s with
  | c :: _ => c <> 47
  | [] => True
  end.
Proof.
  induction s as [|c s IH]; simpl; [exact I|].
  destruct (c =? 47) eqn:Hc; [exact IH|]. now apply Z.eqb_neq.
Qed.

Lemma stripTrailingSlashes_last (s rest : str) (c : Z) :
  stripTrailingSlashes s = rest ++ [c] -> c <> 47.
Proof.
  unfold stripTrailingSlashes. intros H.
  apply (f_equal (@rev Z)) in H.
  rewrite rev_involutive, rev_app_distr in H. simpl in H.
  pose proof (dropSlashes_head (rev s)) as Hhead. now rewrite H in Hhead.
Qed.

Lemma dropSlashes_fixed (s : str) :
  match s with c :: _ => c <> 47 | [] => True end -> dropSlashes s = s.
Proof.
  destruct s as [|c s]; [reflexivity|]. simpl. intros Hc.
  apply Z.eqb_neq in Hc. now rewrite Hc.
Qed.

Lemma stripTrailingSlashes_idempotent (s : str) :
  stripTrailingSlashes (stripTrailingSlashes s) = stripTrailingSlashes s.
Proof.
  unfold stripTrailingSlashes. rewrite rev_involutive.
  now rewrite (dropSlashes_fixed _ (dropSlashes_head (rev s))).
Qed.

(** The shape of a string that passes the test for a protocol. *)
Lemma hasProtocol_shape (s : str) :
  hasProtocol s = true ->
  exists scheme rest,
    s = scheme ++ 58 :: rest
    /\ (startsWithIgnoreCase (lit "https") scheme = true
        /\ length scheme = 5%nat
        \/ startsWithIgnoreCase (lit "http") scheme = true
           /\ length scheme = 4%nat).
Proof.
  unfold hasProtocol. rewrite orb_true_iff. intros [H|H].
  - destruct s as [|c1 [|c2 [|c3 [|c4 [|c5 [|c6 rest]]]]]];
      try (cbn [startsWithIgnoreCase lit] in H;
           rewrite ?andb_false_r in H; discriminate H).
    exists [c1; c2; c3; c4; c5], rest.
    cbn [startsWithIgnoreCase lit] in H.
    repeat (apply andb_prop in H as [? H]).
    assert (c6 = 58).
    { match goal with
      | Hc : matchesIgnoreCase _ c6 = true |- _ =>
          unfold matchesIgnoreCase in Hc; simpl in Hc;
          rewrite !orb_false_r in Hc; now apply Z.eqb_eq in Hc
      end. }
    subst c6. split; [reflexivity|]. left. split; [|reflexivity].
    cbn [startsWithIgnoreCase lit].
    repeat match goal with
           | Hc : matchesIgnoreCase _ _ = true |- _ => rewrite Hc; clear Hc
           end.
    reflexivity.
  - destruct s as [|c1 [|c2 [|c3 [|c4 [|c5 rest]]]]];
      try (cbn [startsWithIgnoreCase lit] in H;
           rewrite ?andb_false_r in H; discriminate H).
    exists [c1; c2; c3; c4], rest.
    cbn [startsWithIgnoreCase lit] in H.
    repeat (apply andb_prop in H as [? H]).
    assert (c5 = 58).
    { match goal with
      | Hc : matchesIgnoreCase _ c5 = true |- _ =>
          unfold matchesIgnoreCase in Hc; simpl in Hc;
          rewrite !orb_false_r in Hc; now apply Z.eqb_eq in Hc
      end. }
    subst c5. split; [reflexivity|]. right. split; [|reflexivity].
    cbn [startsWithIgnoreCase lit].
    repeat match goal with
           | Hc : matchesIgnoreCase _ _ = true |- _ => rewrite Hc; clear Hc
           end.
    reflexivity.
Qed.

Lemma normalizeApiUrl_shape (value : option str) :
  exists scheme rest,
    normalizeApiUrl value = scheme ++ 58 :: rest
    /\ (startsWithIgnoreCase (lit "https") scheme = true
        /\ length scheme = 5%nat
        \/ startsWithIgnoreCase (lit "http") scheme = true
           /\ length scheme = 4%nat).
Proof.
  unfold normalizeApiUrl. cbv zeta.
  set (trimmed := trim _).
  destruct (isEmpty trimmed).
  { exists (lit "https"), (lit "//" ++ DEFAULT_API_HOST).
    split; [reflexivity | now left]. }
  destruct (hasProtocol trimmed) eqn:Hprotocol.
  - destruct (hasProtocol_shape trimmed Hprotocol)
      as (scheme & rest & -> & Hscheme).
    exists scheme, (stripTrailingSlashes rest).
    split; [|exact Hscheme].
    now apply stripTrailingSlashes_keeps.
  - exists (lit "https"), (stripTrailingSlashes (lit "//" ++ trimmed)).
    split; [|now left].
    now apply (stripTrailingSlashes_keeps (lit "https") (lit "//" ++ trimmed)).
Qed.

Lemma normalizeApiUrl_stripped (value : option str) :
  stripTrailingSlashes (normalizeApiUrl value) = normalizeApiUrl value.
Proof.
  unfold normalizeApiUrl. cbv zeta.
  destruct (isEmpty _); [reflexivity|].
  apply stripTrailingSlashes_idempotent.
Qed.

(** A normalized address is never empty and never ends in a slash,
    whatever was entered or stored. *)
Theorem normalizeApiUrl_has_no_trailing_slash (value : option str) :
  normalizeApiUrl value <> []
  /\ forall rest c, normalizeApiUrl value = rest ++ [c] -> c <> 47.
Proof.
  split.
  - destruct (normalizeApiUrl_shape value) as (scheme & rest & -> & _).
    intros H. symmetry in H. now apply app_cons_not_nil in H.
  - intros rest c H. rewrite <- normalizeApiUrl_stripped in H.
    now apply stripTrailingSlashes_last in H.
Qed.

Lemma startsWithIgnoreCase_app (p s rest : str) :
  startsWithIgnoreCase p s = true ->
  startsWithIgnoreCase p (s ++ rest) = true.
Proof.
  revert s. induction p as [|x p IH]; intros s H; [reflexivity|].
  destruct s as [|c s]; [discriminate|]. simpl in *.
  apply andb_prop in H as [-> H]. now apply IH.
Qed.

(** The socket address always has a socket scheme: turned into a socket
    address, a normalized address starts with "wss:" or with "ws:". *)
Theorem socket_address_has_socket_scheme (value : option str) :
  exists rest,
    toWsUrl (normalizeApiUrl value) = lit "wss:" ++ rest
    \/ toWsUrl (normalizeApiUrl value) = lit "ws:" ++ rest.
Proof.
  destruct (normalizeApiUrl_shape value)
    as (scheme & rest & -> & [[Hscheme Hlen]|[Hscheme Hlen]]);
    exists rest; unfold toWsUrl, replacePrefixIgnoreCase.
  - left. rewrite (startsWithIgnoreCase_app _ _ _ Hscheme).
    change (length (lit "https")) with 5%nat. rewrite <- Hlen.
    now rewrite skipn_app_exact.
  - right.
    destruct scheme as [|c1 [|c2 [|c3 [|c4 [|c5 more]]]]]; try discriminate.
    pose proof (startsWithIgnoreCase_app _ _ (58 :: rest) Hscheme) as Hhttp.
    cbn [startsWithIgnoreCase lit] in Hscheme.
    repeat (apply andb_prop in Hscheme as [? Hscheme]).
    assert (Hnot : startsWithIgnoreCase (lit "https")
                     ([c1; c2; c3; c4] ++ 58 :: rest) = false).
    { cbn [startsWithIgnoreCase lit app].
      repeat match goal with
             | Hc : matchesIgnoreCase _ _ = true |- _ =>
                 rewrite Hc; clear Hc
             end.
      reflexivity. }
    rewrite Hnot, Hhttp. reflexivity.
Qed.

(** An address stored by setApiUrl reads back as it was stored, provided
    it kept its protocol and does not end in whitespace (the protocol is
    lost when nothing but slashes followed it, and whitespace is left at
    the end when it stood before the trailing slashes). *)
Theorem stored_address_reads_back (value : str) :
  let stored := setApiUrl value in
  hasProtocol stored = true ->
  trim stored = stored ->
  getApiUrl (Some stored) = stored.
Proof.
  intros stored Hprotocol Htrim. subst stored.
  unfold getApiUrl, setApiUrl in *.
  unfold normalizeApiUrl at 1. cbv zeta. rewrite Htrim, Hprotocol.
  destruct (normalizeApiUrl (Some value)) eqn:Hr.
  - destruct (normalizeApiUrl_shape (Some value)) as (scheme & rest & H & _).
    rewrite Hr in H. now apply app_cons_not_nil in H.
  - cbn [isEmpty]. rewrite <- Hr. apply normalizeApiUrl_stripped.
Qed.

Lemma stored_address_reads_back_witness :
  getApiUrl (Some (setApiUrl (lit " example.org:8080/// ")))
  = lit "https://example.org:8080".
Proof.
  refine (stored_address_reads_back (lit " example.org:8080/// ") _ _);
    reflexivity.
Defined.

Example normalizeApiUrl_examples :
  normalizeApiUrl None = lit "https://bloxchat.logix.lol"
  /\ normalizeApiUrl (Some (lit "   ")) = lit "https://bloxchat.logix.lol"
  /\ normalizeApiUrl (Some (lit " HTTP://Host// ")) = lit "HTTP://Host"
  /\ normalizeApiUrl (Some (lit "host/api/")) = lit "https://host/api"
  /\ toWsUrl (lit "HTTP://Host") = lit "ws://Host"
  /\ toWsUrl (lit "https://host/api") = lit "wss://host/api".
Proof. repeat split. Qed.

Lemma normalizeApiUrl_has_no_trailing_slash_witness : 116 <> 47.
Proof.
  apply (proj2 (normalizeApiUrl_has_no_trailing_slash (Some (lit "host/")))
           (lit "https://hos") 116).
  reflexivity.
Defined.
